(** * Sailing wind calculator: geometry kernel, ring store and gesture controller

    A shallow embedding of
      - [composables/useWindCalculations.ts] (module [WindCalculations]),
      - [app/stores/sailing.ts] and [stores/sailing.ts] (module [Store] for what
        the two files share verbatim, [AppStore] and [RootStore] for their two
        versions of [updateRingDrag]),
      - the gesture and keyboard handlers of [composables/useSailingCanvas.ts]
        (module [Controller]), which drive [stores/sailing.ts].

    JavaScript numbers are modelled as exact real numbers: rounding, signed
    zeros and overflow are abstracted away.  The one place where the code can
    turn finite numbers into a non-finite one is the division in the speed
    getters; that division is modelled by [JS.div], whose result type
    [JS.number] keeps [NaN] and the two infinities apart from finite values.
    The fields of the store are reals, so an action that would store an
    apparent wind computed from a non-finite speed returns [None]. *)

From Stdlib Require Import Reals Lra Lia ZArith List Bool.
Import ListNotations.
Open Scope R_scope.

(** ** JavaScript number primitives over the reals *)

Module JS.

(** Truncation toward zero, the rounding used by the [%] operator. *)
Definition trunc (x : R) : Z :=
  if Rle_dec 0 x then Int_part x else (- Int_part (- x))%Z.

(** [a % m]: the remainder has the sign of the dividend. *)
Definition rem (a m : R) : R := a - m * IZR (trunc (a / m)).

(** [Math.atan2(y, x)].  At the origin JavaScript answers by the signs of
    the two zeros: 0 for (+0, +0), [PI] for (+0, -0), and their negatives
    for a negative-zero [y].  The reals have one zero; the value here is that
    of two positive zeros, the zeros that a subtraction of equal numbers and a
    product of factors that are not negative give. *)
Definition atan2 (y x : R) : R :=
  if Rlt_dec 0 x then atan (y / x)
  else if Rlt_dec x 0 then
    (if Rle_dec 0 y then atan (y / x) + PI else atan (y / x) - PI)
  else if Rlt_dec 0 y then PI / 2
  else if Rlt_dec y 0 then - (PI / 2)
  else 0.

(** Result of an operation that may leave the finite numbers. *)
Inductive number : Type :=
| Finite (r : R)
| PosInfinity
| NegInfinity
| NaN.

(** [a / b] on finite operands; the divisor [0] is the positive zero that
    a subtraction of equal numbers produces. *)
Definition div (a b : R) : number :=
  if Req_dec_T b 0 then
    (if Req_dec_T a 0 then NaN
     else if Rlt_dec 0 a then PosInfinity else NegInfinity)
  else Finite (a / b).

(** [n * c] for a finite right operand [c]. *)
Definition mul (n : number) (c : R) : number :=
  match n with
  | Finite r => Finite (r * c)
  | PosInfinity =>
      if Req_dec_T c 0 then NaN
      else if Rlt_dec 0 c then PosInfinity else NegInfinity
  | NegInfinity =>
      if Req_dec_T c 0 then NaN
      else if Rlt_dec 0 c then NegInfinity else PosInfinity
  | NaN => NaN
  end.

(** The finite value of a number, if it has one. *)
Definition finite (n : number) : option R :=
  match n with
  | Finite r => Some r
  | _ => None
  end.

(** The comparisons [a <= b] and [a >= b] as booleans. *)
Definition leb (a b : R) : bool := if Rle_dec a b then true else false.
Definition geb (a b : R) : bool := if Rge_dec a b then true else false.

(** [Math.round]: the nearest integer, a tie going up. *)
Definition round (x : R) : R := IZR (Int_part (x + 1 / 2)).

End JS.

(** ** composables/useWindCalculations.ts *)

Module WindCalculations.

Record Vector2D : Type := mkVector2D { x : R; y : R }.

(** The fields [angle] and [speed] occur in several interfaces; here each
    carries the name of its record. *)
Record PolarCoords : Type := mkPolar { polar_angle : R; magnitude : R }.

Record WindData : Type := mkWind { wind_angle : R; wind_speed : R }.

Record BoatData : Type := mkBoat { heading : R; boat_speed : R }.

Definition degToRad (degrees : R) : R := (degrees * PI) / 180.

Definition radToDeg (radians : R) : R := (radians * 180) / PI.

Definition normalizeAngle (angle : R) : R :=
  let normalized := JS.rem angle (2 * PI) in
  if Rlt_dec normalized 0 then normalized + 2 * PI else normalized.

Definition polarToCartesian (polar : PolarCoords) : Vector2D :=
  {| x := magnitude polar * cos (polar_angle polar);
     y := magnitude polar * sin (polar_angle polar) |}.

Definition cartesianToPolar (vector : Vector2D) : PolarCoords :=
  {| polar_angle := JS.atan2 (y vector) (x vector);
     magnitude := sqrt (x vector * x vector + y vector * y vector) |}.

Definition subtractVectors (a b : Vector2D) : Vector2D :=
  {| x := x a - x b; y := y a - y b |}.

Definition calculateApparentWind (trueWind : WindData) (boat : BoatData)
  : WindData :=
  let trueWindVector :=
    polarToCartesian {| polar_angle := wind_angle trueWind;
                        magnitude := wind_speed trueWind |} in
  let boatVector :=
    polarToCartesian {| polar_angle := heading boat;
                        magnitude := boat_speed boat |} in
  let apparentWindVector := subtractVectors trueWindVector boatVector in
  let apparentWindPolar := cartesianToPolar apparentWindVector in
  {| wind_angle := normalizeAngle (polar_angle apparentWindPolar);
     wind_speed := Rmax 0 (magnitude apparentWindPolar) |}.

(** [minSeparation] defaults to [degToRad 10] in the source; callers of the
    model pass it. *)
Definition angleCollision (angle1 angle2 minSeparation : R) : bool :=
  let diff := Rabs (normalizeAngle angle1 - normalizeAngle angle2) in
  let minDiff := Rmin diff (2 * PI - diff) in
  if Rlt_dec minDiff minSeparation then true else false.

(** One iteration of the [for ... of] loop of [constrainAngle]. *)
Definition constrainStep (minSeparation : R) (constrainedAngle existingAngle : R)
  : R :=
  if angleCollision constrainedAngle existingAngle minSeparation then
    let normalizedExisting := normalizeAngle existingAngle in
    let option1 := normalizeAngle (normalizedExisting + minSeparation) in
    let option2 := normalizeAngle (normalizedExisting - minSeparation) in
    let diff1 := Rabs (normalizeAngle constrainedAngle - option1) in
    let diff2 := Rabs (normalizeAngle constrainedAngle - option2) in
    if Rlt_dec diff1 diff2 then option1 else option2
  else constrainedAngle.

Definition constrainAngle (proposedAngle : R) (existingAngles : list R)
  (minSeparation : R) : R :=
  fold_left (constrainStep minSeparation) existingAngles
            (normalizeAngle proposedAngle).

Definition distance (a b : Vector2D) : R :=
  let dx := x a - x b in
  let dy := y a - y b in
  sqrt (dx * dx + dy * dy).

Definition addVectors (a b : Vector2D) : Vector2D :=
  {| x := x a + x b; y := y a + y b |}.

Definition scaleVector (vector : Vector2D) (scale : R) : Vector2D :=
  {| x := x vector * scale; y := y vector * scale |}.

Definition knotsToMs (knots : R) : R := knots * 0.514444.

Definition msToKnots (ms : R) : R := ms / 0.514444.

Definition getAngleFromCenter (center point : Vector2D) : R :=
  JS.atan2 (y point - y center) (x point - x center).

Definition clamp (value min max : R) : R := Rmin (Rmax value min) max.

End WindCalculations.

(** ** app/stores/sailing.ts and stores/sailing.ts

    State, getters and the actions that the two store files share verbatim. *)

Module Store.

Import WindCalculations.

Inductive RingType : Type := wind | boat.

Record Ring : Type := mkRing {
  angle : R;
  radius : R;
  spokes : nat;
  minRadius : R;
  maxRadius : R
}.

Record Canvas : Type := mkCanvas {
  width : R;
  height : R;
  centerX : R;
  centerY : R
}.

Record SailingState : Type := mkState {
  windRing : Ring;
  boatRing : Ring;
  apparentWind : WindData;
  canvas : Canvas;
  selectedRing : option RingType;
  isDragging : bool;
  dragStart : option Vector2D
}.

(** [state: () => ({ ... })] *)
Definition initialState : SailingState :=
  {| windRing := {| angle := degToRad 0; radius := 180; spokes := 3;
                    minRadius := 80; maxRadius := 250 |};
     boatRing := {| angle := degToRad 45; radius := 120; spokes := 4;
                    minRadius := 60; maxRadius := 180 |};
     apparentWind := {| wind_angle := degToRad 0; wind_speed := 0 |};
     canvas := {| width := 800; height := 600; centerX := 400; centerY := 300 |};
     selectedRing := None;
     isDragging := false;
     dragStart := None |}.

(** Field updates. *)
Definition set_angle (a : R) (r : Ring) : Ring :=
  {| angle := a; radius := radius r; spokes := spokes r;
     minRadius := minRadius r; maxRadius := maxRadius r |}.

Definition set_radius (v : R) (r : Ring) : Ring :=
  {| angle := angle r; radius := v; spokes := spokes r;
     minRadius := minRadius r; maxRadius := maxRadius r |}.

Definition set_windRing (r : Ring) (s : SailingState) : SailingState :=
  {| windRing := r; boatRing := boatRing s; apparentWind := apparentWind s;
     canvas := canvas s; selectedRing := selectedRing s;
     isDragging := isDragging s; dragStart := dragStart s |}.

Definition set_boatRing (r : Ring) (s : SailingState) : SailingState :=
  {| windRing := windRing s; boatRing := r; apparentWind := apparentWind s;
     canvas := canvas s; selectedRing := selectedRing s;
     isDragging := isDragging s; dragStart := dragStart s |}.

Definition set_apparentWind (w : WindData) (s : SailingState) : SailingState :=
  {| windRing := windRing s; boatRing := boatRing s; apparentWind := w;
     canvas := canvas s; selectedRing := selectedRing s;
     isDragging := isDragging s; dragStart := dragStart s |}.

Definition set_dragStart (d : option Vector2D) (s : SailingState) : SailingState :=
  {| windRing := windRing s; boatRing := boatRing s;
     apparentWind := apparentWind s; canvas := canvas s;
     selectedRing := selectedRing s; isDragging := isDragging s;
     dragStart := d |}.

(** [this.selectedRing === 'wind' ? this.windRing : this.boatRing] *)
Definition ringOf (sel : RingType) (s : SailingState) : Ring :=
  match sel with
  | wind => windRing s
  | boat => boatRing s
  end.

(** Writing through the reference obtained by [ringOf]. *)
Definition set_ringOf (sel : RingType) (r : Ring) (s : SailingState)
  : SailingState :=
  match sel with
  | wind => set_windRing r s
  | boat => set_boatRing r s
  end.

(** *** Getters *)

Definition windSpeed (state : SailingState) : JS.number :=
  let normalized :=
    JS.div (radius (windRing state) - minRadius (windRing state))
           (maxRadius (windRing state) - minRadius (windRing state)) in
  JS.mul normalized 30.

Definition boatSpeed (state : SailingState) : JS.number :=
  let normalized :=
    JS.div (radius (boatRing state) - minRadius (boatRing state))
           (maxRadius (boatRing state) - minRadius (boatRing state)) in
  JS.mul normalized 20.

(** *** Actions *)

Definition updateCanvasDimensions (width height : R) (s : SailingState)
  : SailingState :=
  let maxSize := Rmin width height * 0.4 in
  let windRing' :=
    {| angle := angle (windRing s);
       radius := Rmin (radius (windRing s)) maxSize;
       spokes := spokes (windRing s);
       minRadius := maxSize * 0.4;
       maxRadius := maxSize |} in
  let boatMaxRadius := maxSize * 0.8 in
  let boatRing' :=
    {| angle := angle (boatRing s);
       radius := Rmin (radius (boatRing s)) boatMaxRadius;
       spokes := spokes (boatRing s);
       minRadius := maxSize * 0.3;
       maxRadius := boatMaxRadius |} in
  {| windRing := windRing';
     boatRing := boatRing';
     apparentWind := apparentWind s;
     canvas := {| width := width; height := height;
                  centerX := width / 2; centerY := height / 2 |};
     selectedRing := selectedRing s;
     isDragging := isDragging s;
     dragStart := dragStart s |}.

Definition startRingDrag (ringType : RingType) (startPoint : Vector2D)
  (s : SailingState) : SailingState :=
  {| windRing := windRing s; boatRing := boatRing s;
     apparentWind := apparentWind s; canvas := canvas s;
     selectedRing := Some ringType;
     isDragging := true;
     dragStart := Some startPoint |}.

Definition endRingDrag (s : SailingState) : SailingState :=
  {| windRing := windRing s; boatRing := boatRing s;
     apparentWind := apparentWind s; canvas := canvas s;
     selectedRing := None;
     isDragging := false;
     dragStart := None |}.

(** The apparent wind that the kernel derives from the rings of [s], when
    both derived speeds are finite numbers. *)
Definition derivedApparentWind (s : SailingState) : option WindData :=
  match JS.finite (windSpeed s), JS.finite (boatSpeed s) with
  | Some ws, Some bs =>
      Some (WindCalculations.calculateApparentWind
              {| wind_angle := angle (windRing s); wind_speed := ws |}
              {| heading := angle (boatRing s); boat_speed := bs |})
  | _, _ => None
  end.

(** The action [calculateApparentWind()].  [None] stands for a store whose
    apparent wind would be computed from a non-finite speed, which the real
    fields of [SailingState] cannot hold. *)
Definition calculateApparentWind (s : SailingState) : option SailingState :=
  match derivedApparentWind s with
  | Some w => Some (set_apparentWind w s)
  | None => None
  end.

Definition initialize (s : SailingState) : option SailingState :=
  calculateApparentWind s.

Inductive Direction : Type := Left | Right | Up | Down.

Definition moveSelectedRing (direction : Direction) (step : R)
  (s : SailingState) : option SailingState :=
  match selectedRing s with
  | None => Some s
  | Some sel =>
      let ring := ringOf sel s in
      let ring' :=
        match direction with
        | Left => set_angle (normalizeAngle (angle ring - degToRad 5)) ring
        | Right => set_angle (normalizeAngle (angle ring + degToRad 5)) ring
        | Up =>
            set_radius
              (Rmin (maxRadius ring) (radius ring + maxRadius ring * step)) ring
        | Down =>
            set_radius
              (Rmax (minRadius ring) (radius ring - maxRadius ring * step)) ring
        end in
      calculateApparentWind (set_ringOf sel ring' s)
  end.

Definition selectRing (ringType : option RingType) (s : SailingState)
  : SailingState :=
  {| windRing := windRing s; boatRing := boatRing s;
     apparentWind := apparentWind s; canvas := canvas s;
     selectedRing := ringType;
     isDragging := isDragging s;
     dragStart := dragStart s |}.

(** *** Handle positions and display getters *)

Record HandlePosition : Type := mkHandle {
  handle_x : R;
  handle_y : R;
  theta : R
}.

(** [Array.from({ length: ring.spokes }, (_, i) => ...)] *)
Definition ringHandles (state : SailingState) (ring : Ring) : list HandlePosition :=
  map (fun i : nat =>
         let theta := angle ring + (INR i * 2 * PI) / INR (spokes ring) in
         {| handle_x := centerX (canvas state) + radius ring * cos theta;
            handle_y := centerY (canvas state) + radius ring * sin theta;
            theta := normalizeAngle theta |})
      (seq 0 (spokes ring)).

Definition windHandles (state : SailingState) : list HandlePosition :=
  ringHandles state (windRing state).

Definition boatHandles (state : SailingState) : list HandlePosition :=
  ringHandles state (boatRing state).

Definition windAngleDegrees (state : SailingState) : R :=
  JS.round (radToDeg (angle (windRing state))).

Definition boatHeadingDegrees (state : SailingState) : R :=
  JS.round (radToDeg (angle (boatRing state))).

Definition apparentWindAngleDegrees (state : SailingState) : R :=
  JS.round (radToDeg (wind_angle (apparentWind state))).

End Store.

(** [updateRingDrag] of app/stores/sailing.ts. *)

Module AppStore.

Import WindCalculations Store.

Definition updateRingDrag (currentPoint : Vector2D) (s : SailingState)
  : option SailingState :=
  match selectedRing s with
  | None => Some s
  | Some sel =>
      if negb (isDragging s) then Some s
      else
        let ring := ringOf sel s in
        let dx := x currentPoint - centerX (canvas s) in
        let dy := y currentPoint - centerY (canvas s) in
        let newRadius := sqrt (dx * dx + dy * dy) in
        let newAngle := JS.atan2 dy dx in
        let clampedRadius :=
          Rmax (minRadius ring) (Rmin (maxRadius ring) newRadius) in
        let s1 :=
          set_ringOf sel
            (set_angle (normalizeAngle newAngle) (set_radius clampedRadius ring))
            s in
        let s2 := set_dragStart (Some currentPoint) s1 in
        Store.calculateApparentWind s2
  end.

End AppStore.

(** [updateRingDrag] of stores/sailing.ts. *)

Module RootStore.

Import WindCalculations Store.

Definition updateRingDrag (currentPoint : Vector2D) (s : SailingState)
  : option SailingState :=
  match selectedRing s, dragStart s with
  | Some sel, Some start =>
      if negb (isDragging s) then Some s
      else
        let ring := ringOf sel s in
        let startVector :=
          {| x := x start - centerX (canvas s);
             y := y start - centerY (canvas s) |} in
        let currentVector :=
          {| x := x currentPoint - centerX (canvas s);
             y := y currentPoint - centerY (canvas s) |} in
        let startRadius := sqrt (x startVector ^ 2 + y startVector ^ 2) in
        let currentRadius := sqrt (x currentVector ^ 2 + y currentVector ^ 2) in
        let deltaR := currentRadius - startRadius in
        let startAngle := JS.atan2 (y startVector) (x startVector) in
        let currentAngle := JS.atan2 (y currentVector) (x currentVector) in
        let deltaTheta := normalizeAngle (currentAngle - startAngle) in
        let radialMovement := Rabs deltaR in
        let tangentialMovement := Rabs (startRadius * deltaTheta) in
        let s1 :=
          if Rgt_dec radialMovement tangentialMovement then
            let newRadius :=
              Rmax (minRadius ring)
                   (Rmin (maxRadius ring) (radius ring + deltaR)) in
            set_ringOf sel (set_radius newRadius ring) s
          else
            let newAngle := normalizeAngle (angle ring + deltaTheta) in
            set_ringOf sel (set_angle newAngle ring) s in
        let s2 := set_dragStart (Some currentPoint) s1 in
        Store.calculateApparentWind s2
  | _, _ => Some s
  end.

End RootStore.

(** ** composables/useSailingCanvas.ts: gesture and keyboard handlers

    The handlers close over the store and over the two local variables of
    [setupGestures]; points are already in canvas coordinates. *)

Module Controller.

Import WindCalculations.

Record Gestures : Type := mkGestures {
  store : Store.SailingState;
  isDragging : bool;
  currentRing : option Store.RingType
}.

Definition getRingAt (point : Vector2D) (s : Store.SailingState)
  : option Store.RingType :=
  let center := {| x := Store.centerX (Store.canvas s);
                   y := Store.centerY (Store.canvas s) |} in
  let distFromCenter := distance point center in
  let tolerance := 20 in
  if Rlt_dec (Rabs (distFromCenter - Store.radius (Store.windRing s))) tolerance
  then Some Store.wind
  else if Rlt_dec (Rabs (distFromCenter - Store.radius (Store.boatRing s)))
                  tolerance
  then Some Store.boat
  else None.

Definition handleMouseDown (canvasPoint : Vector2D) (g : Gestures) : Gestures :=
  match getRingAt canvasPoint (store g) with
  | Some ring =>
      {| store := Store.startRingDrag ring canvasPoint (store g);
         isDragging := true;
         currentRing := Some ring |}
  | None =>
      {| store := Store.selectRing None (store g);
         isDragging := isDragging g;
         currentRing := currentRing g |}
  end.

Definition handleMouseMove (canvasPoint : Vector2D) (g : Gestures)
  : option Gestures :=
  match isDragging g, currentRing g with
  | true, Some _ =>
      match RootStore.updateRingDrag canvasPoint (store g) with
      | Some s' =>
          Some {| store := s'; isDragging := isDragging g;
                  currentRing := currentRing g |}
      | None => None
      end
  | _, _ => Some g
  end.

Definition handleMouseUp (g : Gestures) : Gestures :=
  let store' :=
    match isDragging g, currentRing g with
    | true, Some ring =>
        Store.selectRing (Some ring) (Store.endRingDrag (store g))
    | _, _ => store g
    end in
  {| store := store'; isDragging := false; currentRing := None |}.

Inductive Key : Type :=
| ArrowLeft | ArrowRight | ArrowUp | ArrowDown | Escape | OtherKey.

Definition handleKeyDown (key : Key) (g : Gestures) : option Gestures :=
  match Store.selectedRing (store g) with
  | None => Some g
  | Some _ =>
      let with_store (r : option Store.SailingState) : option Gestures :=
        match r with
        | Some s' =>
            Some {| store := s'; isDragging := isDragging g;
                    currentRing := currentRing g |}
        | None => None
        end in
      match key with
      | ArrowLeft => with_store (Store.moveSelectedRing Store.Left 0.05 (store g))
      | ArrowRight => with_store (Store.moveSelectedRing Store.Right 0.05 (store g))
      | ArrowUp => with_store (Store.moveSelectedRing Store.Up 0.05 (store g))
      | ArrowDown => with_store (Store.moveSelectedRing Store.Down 0.05 (store g))
      | Escape => with_store (Some (Store.selectRing None (store g)))
      | OtherKey => Some g
      end
  end.

Definition handleResize (width height : R) (g : Gestures) : Gestures :=
  {| store := Store.updateCanvasDimensions width height (store g);
     isDragging := isDragging g;
     currentRing := currentRing g |}.

(** The events the listeners are registered for, and their dispatch. *)
Inductive Event : Type :=
| MouseDown (canvasPoint : Vector2D)
| MouseMove (canvasPoint : Vector2D)
| MouseUp
| KeyDown (key : Key)
| Resize (width height : R).

Definition dispatch (e : Event) (g : Gestures) : option Gestures :=
  match e with
  | MouseDown p => Some (handleMouseDown p g)
  | MouseMove p => handleMouseMove p g
  | MouseUp => Some (handleMouseUp g)
  | KeyDown k => handleKeyDown k g
  | Resize w h => Some (handleResize w h g)
  end.

Fixpoint run (events : list Event) (g : Gestures) : option Gestures :=
  match events with
  | [] => Some g
  | e :: rest =>
      match dispatch e g with
      | Some g' => run rest g'
      | None => None
      end
  end.

End Controller.

(** ** The data panel component: wind angles relative to the boat heading *)

Module DataPanel.

Import WindCalculations.

Definition trueWindAngleRelative (store : Store.SailingState) : R :=
  let relative :=
    radToDeg (normalizeAngle (Store.angle (Store.windRing store)
                              - Store.angle (Store.boatRing store))) in
  JS.round (if Rgt_dec relative 180 then relative - 360 else relative).

Definition apparentWindAngleRelative (store : Store.SailingState) : R :=
  let relative :=
    radToDeg (normalizeAngle (wind_angle (Store.apparentWind store)
                              - Store.angle (Store.boatRing store))) in
  JS.round (if Rgt_dec relative 180 then relative - 360 else relative).

End DataPanel.

(** ** app/composables/useSailingCanvas.ts: the handlers over local refs

    The composable keeps headings, speeds and four interaction flags in refs
    of its own; of the store it reads the canvas center only. *)

Module AppCanvas.

Record Refs : Type := mkRefs {
  boatHeading : R;
  boatSpeed : R;
  windHeading : R;
  windSpeed : R;
  isDraggingBoat : bool;
  isResizingBoat : bool;
  isDraggingWind : bool;
  isResizingWind : bool
}.

Definition initialRefs : Refs :=
  {| boatHeading := 0; boatSpeed := 5; windHeading := - PI / 4; windSpeed := 10;
     isDraggingBoat := false; isResizingBoat := false;
     isDraggingWind := false; isResizingWind := false |}.

Definition pixelsPerKnot : R := 10.
Definition minSpeed : R := 5.
Definition maxSpeed : R := 50.

Definition boatCircleRadius (r : Refs) : R := boatSpeed r * pixelsPerKnot.
Definition windCircleRadius (r : Refs) : R := windSpeed r * pixelsPerKnot.

Definition handleMouseDown (mouseX mouseY : R) (s : Store.SailingState) (r : Refs)
  : Refs :=
  let centerX := Store.centerX (Store.canvas s) in
  let centerY := Store.centerY (Store.canvas s) in
  let distanceFromCenter := sqrt ((mouseX - centerX) ^ 2 + (mouseY - centerY) ^ 2) in
  let boatHandleX := centerX + boatCircleRadius r * cos (boatHeading r) in
  let boatHandleY := centerY + boatCircleRadius r * sin (boatHeading r) in
  let distanceToBoatHandle :=
    sqrt ((mouseX - boatHandleX) ^ 2 + (mouseY - boatHandleY) ^ 2) in
  let windHandleX := centerX + windCircleRadius r * cos (windHeading r) in
  let windHandleY := centerY + windCircleRadius r * sin (windHeading r) in
  let distanceToWindHandle :=
    sqrt ((mouseX - windHandleX) ^ 2 + (mouseY - windHandleY) ^ 2) in
  if Rle_dec distanceToBoatHandle 15 then
    {| boatHeading := boatHeading r; boatSpeed := boatSpeed r;
       windHeading := windHeading r; windSpeed := windSpeed r;
       isDraggingBoat := true; isResizingBoat := isResizingBoat r;
       isDraggingWind := isDraggingWind r; isResizingWind := isResizingWind r |}
  else if Rle_dec distanceToWindHandle 15 then
    {| boatHeading := boatHeading r; boatSpeed := boatSpeed r;
       windHeading := windHeading r; windSpeed := windSpeed r;
       isDraggingBoat := isDraggingBoat r; isResizingBoat := isResizingBoat r;
       isDraggingWind := true; isResizingWind := isResizingWind r |}
  else if JS.geb distanceFromCenter 30
          && JS.leb (Rabs (distanceFromCenter - boatCircleRadius r)) 20 then
    {| boatHeading := boatHeading r; boatSpeed := boatSpeed r;
       windHeading := windHeading r; windSpeed := windSpeed r;
       isDraggingBoat := isDraggingBoat r; isResizingBoat := true;
       isDraggingWind := isDraggingWind r; isResizingWind := isResizingWind r |}
  else if JS.geb distanceFromCenter 30
          && JS.leb (Rabs (distanceFromCenter - windCircleRadius r)) 20 then
    {| boatHeading := boatHeading r; boatSpeed := boatSpeed r;
       windHeading := windHeading r; windSpeed := windSpeed r;
       isDraggingBoat := isDraggingBoat r; isResizingBoat := isResizingBoat r;
       isDraggingWind := isDraggingWind r; isResizingWind := true |}
  else r.

Definition handleMouseMove (mouseX mouseY : R) (s : Store.SailingState) (r : Refs)
  : Refs :=
  if negb (isDraggingBoat r) && negb (isResizingBoat r)
     && negb (isDraggingWind r) && negb (isResizingWind r)
  then r
  else
    let centerX := Store.centerX (Store.canvas s) in
    let centerY := Store.centerY (Store.canvas s) in
    if isDraggingBoat r then
      let angle := JS.atan2 (mouseY - centerY) (mouseX - centerX) in
      {| boatHeading := angle; boatSpeed := boatSpeed r;
         windHeading := windHeading r; windSpeed := windSpeed r;
         isDraggingBoat := isDraggingBoat r; isResizingBoat := isResizingBoat r;
         isDraggingWind := isDraggingWind r; isResizingWind := isResizingWind r |}
    else if isDraggingWind r then
      let angle := JS.atan2 (mouseY - centerY) (mouseX - centerX) in
      {| boatHeading := boatHeading r; boatSpeed := boatSpeed r;
         windHeading := angle; windSpeed := windSpeed r;
         isDraggingBoat := isDraggingBoat r; isResizingBoat := isResizingBoat r;
         isDraggingWind := isDraggingWind r; isResizingWind := isResizingWind r |}
    else if isResizingBoat r then
      let distance := sqrt ((mouseX - centerX) ^ 2 + (mouseY - centerY) ^ 2) in
      let newSpeed := Rmax minSpeed (Rmin maxSpeed (distance / pixelsPerKnot)) in
      {| boatHeading := boatHeading r; boatSpeed := JS.round (newSpeed * 10) / 10;
         windHeading := windHeading r; windSpeed := windSpeed r;
         isDraggingBoat := isDraggingBoat r; isResizingBoat := isResizingBoat r;
         isDraggingWind := isDraggingWind r; isResizingWind := isResizingWind r |}
    else if isResizingWind r then
      let distance := sqrt ((mouseX - centerX) ^ 2 + (mouseY - centerY) ^ 2) in
      let newSpeed := Rmax minSpeed (Rmin maxSpeed (distance / pixelsPerKnot)) in
      {| boatHeading := boatHeading r; boatSpeed := boatSpeed r;
         windHeading := windHeading r; windSpeed := JS.round (newSpeed * 10) / 10;
         isDraggingBoat := isDraggingBoat r; isResizingBoat := isResizingBoat r;
         isDraggingWind := isDraggingWind r; isResizingWind := isResizingWind r |}
    else r.

Definition handleMouseUp (r : Refs) : Refs :=
  {| boatHeading := boatHeading r; boatSpeed := boatSpeed r;
     windHeading := windHeading r; windSpeed := windSpeed r;
     isDraggingBoat := false; isResizingBoat := false;
     isDraggingWind := false; isResizingWind := false |}.

(** The mouse events the listeners are registered for, and their dispatch. *)
Inductive Event : Type :=
| MouseDown (mouseX mouseY : R)
| MouseMove (mouseX mouseY : R)
| MouseUp.

Definition dispatch (s : Store.SailingState) (e : Event) (r : Refs) : Refs :=
  match e with
  | MouseDown mx my => handleMouseDown mx my s r
  | MouseMove mx my => handleMouseMove mx my s r
  | MouseUp => handleMouseUp r
  end.

Definition run (s : Store.SailingState) (events : list Event) (r : Refs) : Refs :=
  fold_left (fun acc e => dispatch s e acc) events r.


End AppCanvas.

(** ** Reference definitions that follow the specification's wording *)

Module Spec.

Import WindCalculations.

(** Forward angular distance from [a1] to [a2], both normalized. *)
Definition forwardDistance (a1 a2 : R) : R :=
  normalizeAngle (normalizeAngle a2 - normalizeAngle a1).

(** Backward angular distance from [a1] to [a2], both normalized. *)
Definition backwardDistance (a1 a2 : R) : R :=
  normalizeAngle (normalizeAngle a1 - normalizeAngle a2).

(** The minimum of the forward and the backward angular distance. *)
Definition angularDistance (a1 a2 : R) : R :=
  Rmin (forwardDistance a1 a2) (backwardDistance a1 a2).

(** One snapping step: on collision, move to the candidate
    [existing + minSeparation] or [existing - minSeparation] (normalized)
    that is nearer in angular distance. *)
Definition constrainStep (minSeparation constrainedAngle existingAngle : R) : R :=
  if angleCollision constrainedAngle existingAngle minSeparation then
    let option1 := normalizeAngle (normalizeAngle existingAngle + minSeparation) in
    let option2 := normalizeAngle (normalizeAngle existingAngle - minSeparation) in
    if Rlt_dec (angularDistance constrainedAngle option1)
               (angularDistance constrainedAngle option2)
    then option1 else option2
  else constrainedAngle.

Definition constrainAngle (proposedAngle : R) (existingAngles : list R)
  (minSeparation : R) : R :=
  fold_left (constrainStep minSeparation) existingAngles
            (normalizeAngle proposedAngle).

(** The ring invariant of the data model. *)
Definition radiusWithinBounds (r : Store.Ring) : Prop :=
  Store.minRadius r <= Store.radius r <= Store.maxRadius r.

(** The stored apparent wind is the one derived from the current rings. *)
Definition apparentWindFresh (s : Store.SailingState) : Prop :=
  Store.derivedApparentWind s = Some (Store.apparentWind s).

(** Both speed getters divide by a non-zero difference of bounds. *)
Definition boundsDistinct (s : Store.SailingState) : Prop :=
  Store.minRadius (Store.windRing s) <> Store.maxRadius (Store.windRing s)
  /\ Store.minRadius (Store.boatRing s) <> Store.maxRadius (Store.boatRing s).

Definition otherRing (sel : Store.RingType) : Store.RingType :=
  match sel with
  | Store.wind => Store.boat
  | Store.boat => Store.wind
  end.

(** Canvas center, as the handlers and the store compute it. *)
Definition center (s : Store.SailingState) : Vector2D :=
  {| x := Store.centerX (Store.canvas s); y := Store.centerY (Store.canvas s) |}.

(** Absolute positioning: the ring radius is the pointer's distance from the
    center clamped into the ring's bounds, the ring angle is the normalized
    direction of the pointer from the center. *)
Definition absoluteRadius (p : Vector2D) (s : Store.SailingState)
  (ring : Store.Ring) : R :=
  Rmax (Store.minRadius ring) (Rmin (Store.maxRadius ring) (distance p (center s))).

Definition absoluteAngle (p : Vector2D) (s : Store.SailingState) : R :=
  normalizeAngle (JS.atan2 (y p - y (center s)) (x p - x (center s))).

(** What a drag update leaves untouched, and what it always sets. *)
Definition dragFrame (p : Vector2D) (s : Store.SailingState)
  (sel : Store.RingType) (s' : Store.SailingState) : Prop :=
  Store.ringOf (otherRing sel) s' = Store.ringOf (otherRing sel) s
  /\ Store.minRadius (Store.ringOf sel s') = Store.minRadius (Store.ringOf sel s)
  /\ Store.maxRadius (Store.ringOf sel s') = Store.maxRadius (Store.ringOf sel s)
  /\ Store.canvas s' = Store.canvas s
  /\ Store.selectedRing s' = Some sel
  /\ Store.isDragging s' = true
  /\ Store.dragStart s' = Some p
  /\ apparentWindFresh s'.

(** Outcome of an absolute drag update of ring [sel] to the pointer [p]. *)
Definition absoluteDrag (p : Vector2D) (s : Store.SailingState)
  (sel : Store.RingType) (s' : Store.SailingState) : Prop :=
  Store.radius (Store.ringOf sel s') = absoluteRadius p s (Store.ringOf sel s)
  /\ Store.angle (Store.ringOf sel s') = absoluteAngle p s
  /\ dragFrame p s sel s'.

(** Direction of the point [p] as seen from the canvas center. *)
Definition direction (p : Vector2D) (s : Store.SailingState) : R :=
  JS.atan2 (y p - y (center s)) (x p - x (center s)).

(** The signed turn from direction [a] to direction [b]: the angle in
    $(-\pi, \pi]$ that differs from [b - a] by whole turns. *)
Definition signedTurn (a b : R) : R :=
  let d := normalizeAngle (b - a) in
  if Rle_dec d PI then d else d - 2 * PI.

(** A relative update of the radius: the radius moves by the radial
    movement of the pointer since the anchor [start], clamped into the ring's
    bounds; the angle stays. *)
Definition radialUpdate (p start : Vector2D) (s : Store.SailingState)
  (sel : Store.RingType) (s' : Store.SailingState) : Prop :=
  let ring := Store.ringOf sel s in
  let deltaR := distance p (center s) - distance start (center s) in
  Store.radius (Store.ringOf sel s')
    = Rmax (Store.minRadius ring)
           (Rmin (Store.maxRadius ring) (Store.radius ring + deltaR))
  /\ Store.angle (Store.ringOf sel s') = Store.angle ring.

(** A relative update of the angle: the angle moves by the signed turn of
    the pointer since the anchor [start], normalized; the radius stays. *)
Definition angularUpdate (p start : Vector2D) (s : Store.SailingState)
  (sel : Store.RingType) (s' : Store.SailingState) : Prop :=
  let ring := Store.ringOf sel s in
  Store.radius (Store.ringOf sel s') = Store.radius ring
  /\ Store.angle (Store.ringOf sel s')
     = normalizeAngle (Store.angle ring
                       + signedTurn (direction start s) (direction p s)).

(** Outcome of a drag update relative to the anchor [start]: either the
    radius or the angle changes, by its delta since the anchor; for a turn
    that is not negative the radius changes exactly when the radial movement
    is larger than the tangential movement, the anchor's distance from the
    center times the turn.  (Which of the two changes for a negative turn is
    left open.) *)
Definition relativeDrag (p start : Vector2D) (s : Store.SailingState)
  (sel : Store.RingType) (s' : Store.SailingState) : Prop :=
  let deltaR := distance p (center s) - distance start (center s) in
  let turn := signedTurn (direction start s) (direction p s) in
  (radialUpdate p start s sel s' \/ angularUpdate p start s sel s')
  /\ (0 <= turn ->
      if Rgt_dec (Rabs deltaR) (distance start (center s) * turn)
      then radialUpdate p start s sel s'
      else angularUpdate p start s sel s')
  /\ dragFrame p s sel s'.

(** Pointer-button events. *)
Definition buttonEvent (e : Controller.Event) : bool :=
  match e with
  | Controller.MouseDown _ | Controller.MouseUp => true
  | _ => false
  end.

(** The nudge an arrow key stands for. *)
Definition arrowDirection (k : Controller.Key) : option Store.Direction :=
  match k with
  | Controller.ArrowLeft => Some Store.Left
  | Controller.ArrowRight => Some Store.Right
  | Controller.ArrowUp => Some Store.Up
  | Controller.ArrowDown => Some Store.Down
  | _ => None
  end.

(** A resize to a canvas without area. *)
Definition emptyResize (e : Controller.Event) : bool :=
  match e with
  | Controller.Resize w h =>
      if Rlt_dec 0 w then (if Rlt_dec 0 h then false else true) else true
  | _ => false
  end.

(** Events that deselect or reselect: a pointer-down and the Escape key. *)
Definition selectionEvent (e : Controller.Event) : bool :=
  match e with
  | Controller.MouseDown _ | Controller.KeyDown Controller.Escape => true
  | _ => false
  end.

(** What every event keeps true of a ring: a normalized angle, a radius that
    does not exceed [maxRadius], and ordered, positive bounds.  (The lower
    bound [minRadius <= radius] is not part of it.) *)
Definition ringInvariant (r : Store.Ring) : Prop :=
  0 <= Store.angle r < 2 * PI
  /\ Store.radius r <= Store.maxRadius r
  /\ Store.minRadius r < Store.maxRadius r
  /\ 0 < Store.maxRadius r.

Definition storeInvariant (s : Store.SailingState) : Prop :=
  ringInvariant (Store.windRing s) /\ ringInvariant (Store.boatRing s).

(** Events that neither press the pointer nor resize the canvas. *)
Definition passiveEvent (e : Controller.Event) : bool :=
  match e with
  | Controller.MouseDown _ | Controller.Resize _ _ => false
  | _ => true
  end.

Definition resizeEvent (e : Controller.Event) : bool :=
  match e with
  | Controller.Resize _ _ => true
  | _ => false
  end.

(** The position of a handle as a point. *)
Definition handlePoint (h : Store.HandlePosition) : Vector2D :=
  {| x := Store.handle_x h; y := Store.handle_y h |}.

(** A speed of the canvas refs: between 5 and 50 knots, in tenths of a knot. *)
Definition speedInTenths (v : R) : Prop :=
  5 <= v <= 50 /\ exists n : Z, v * 10 = IZR n.

Definition refsInvariant (r : AppCanvas.Refs) : Prop :=
  speedInTenths (AppCanvas.boatSpeed r)
  /\ speedInTenths (AppCanvas.windSpeed r)
  /\ - PI < AppCanvas.boatHeading r <= PI
  /\ - PI < AppCanvas.windHeading r <= PI.

(** A whole-degree display [v] of a normalized angle [a]: an integer between
    0 and 360, within half a degree of the angle, and 360 itself once the
    angle reaches 359.5 degrees. *)
Definition degreeDisplay (a v : R) : Prop :=
  0 <= v <= 360
  /\ (exists n : Z, v = IZR n)
  /\ Rabs (v - radToDeg a) <= 1 / 2
  /\ (359.5 <= radToDeg a -> v = 360).

End Spec.

(** ** Concrete stores used in the worked examples *)

Module Scenario.

Import WindCalculations Store.

(** The initial store after the boat ring has been dragged onto the
    reference axis at its own radius. *)
Definition boatDraggedEast : SailingState :=
  {| windRing := windRing initialState;
     boatRing := {| angle := 0; radius := 120; spokes := 4;
                    minRadius := 60; maxRadius := 180 |};
     apparentWind := {| wind_angle := 0; wind_speed := 130 / 17 |};
     canvas := canvas initialState;
     selectedRing := Some boat;
     isDragging := true;
     dragStart := Some {| x := 520; y := 300 |} |}.

(** The controller before any gesture. *)
Definition idle : Controller.Gestures :=
  {| Controller.store := initialState;
     Controller.isDragging := false;
     Controller.currentRing := None |}.

(** The controller at rest on [boatDraggedEast] once the drag is over. *)
Definition boatSelected : Controller.Gestures :=
  {| Controller.store := selectRing (Some boat) (endRingDrag boatDraggedEast);
     Controller.isDragging := false;
     Controller.currentRing := None |}.

(** A press on the wind ring, a move, a release, a nudge and a resize. *)
Definition session : list Controller.Event :=
  [Controller.MouseDown {| x := 590; y := 300 |};
   Controller.MouseMove {| x := 600; y := 300 |};
   Controller.MouseUp;
   Controller.KeyDown Controller.ArrowUp;
   Controller.Resize 1000 800].

End Scenario.

(** ** Facts about the number primitives *)

Section RemFacts.

Variable m : R.
Hypothesis m_pos : 0 < m.

Lemma rem_nonneg_range (a : R) : 0 <= a -> 0 <= JS.rem a m < m.
Proof.
  intros Ha. unfold JS.rem, JS.trunc.
  assert (Hq : 0 <= a / m) by (apply Rmult_le_pos; [lra | left; now apply Rinv_0_lt_compat]).
  destruct (Rle_dec 0 (a / m)) as [_ | Hn]; [| lra].
  destruct (base_Int_part (a / m)) as [Hlo Hhi].
  assert (Hm : a = m * (a / m)) by (field; lra).
  split; nra.
Qed.

Lemma rem_neg_range (a : R) : a < 0 -> - m < JS.rem a m <= 0.
Proof.
  intros Ha. unfold JS.rem, JS.trunc.
  assert (Hm : a = m * (a / m)) by (field; lra).
  destruct (Rle_dec 0 (a / m)) as [Hn | _]; [nra |].
  rewrite opp_IZR.
  destruct (base_Int_part (- (a / m))) as [Hlo Hhi].
  split; nra.
Qed.

Lemma rem_congruent (a : R) : exists k : Z, JS.rem a m = a + m * IZR k.
Proof.
  exists (- JS.trunc (a / m))%Z. unfold JS.rem. rewrite opp_IZR. ring.
Qed.

End RemFacts.

(** ** Facts about [normalizeAngle] *)

Import WindCalculations.

Lemma two_PI_pos : 0 < 2 * PI.
Proof. pose proof PI_RGT_0. lra. Qed.

Lemma normalizeAngle_range (a : R) : 0 <= normalizeAngle a < 2 * PI.
Proof.
  unfold normalizeAngle. pose proof two_PI_pos as Hp.
  destruct (Rlt_dec (JS.rem a (2 * PI)) 0) as [Hneg | Hpos].
  - destruct (Rle_dec 0 a) as [Ha | Ha].
    + pose proof (rem_nonneg_range (2 * PI) Hp a Ha). lra.
    + pose proof (rem_neg_range (2 * PI) Hp a). lra.
  - destruct (Rle_dec 0 a) as [Ha | Ha].
    + pose proof (rem_nonneg_range (2 * PI) Hp a Ha). lra.
    + pose proof (rem_neg_range (2 * PI) Hp a). lra.
Qed.

Lemma normalizeAngle_congruent (a : R) :
  exists k : Z, normalizeAngle a = a + 2 * PI * IZR k.
Proof.
  unfold normalizeAngle.
  destruct (rem_congruent (2 * PI) a) as [k Hk].
  destruct (Rlt_dec (JS.rem a (2 * PI)) 0).
  - exists (k + 1)%Z. rewrite Hk, plus_IZR. ring.
  - exists k. exact Hk.
Qed.

Lemma small_multiple_is_zero (k : Z) (d : R) :
  d = 2 * PI * IZR k -> - (2 * PI) < d < 2 * PI -> k = 0%Z.
Proof.
  intros Hd [Hlo Hhi]. pose proof two_PI_pos as Hp.
  assert (H1 : IZR k < IZR 1) by (simpl; nra).
  assert (H2 : IZR (-1) < IZR k) by (simpl; nra).
  apply lt_IZR in H1. apply lt_IZR in H2. lia.
Qed.

Lemma normalizeAngle_unique (a v : R) (k : Z) :
  0 <= v < 2 * PI -> v = a + 2 * PI * IZR k -> normalizeAngle a = v.
Proof.
  intros Hv Hk.
  destruct (normalizeAngle_congruent a) as [j Hj].
  pose proof (normalizeAngle_range a) as Hr.
  assert (Hz : (j - k)%Z = 0%Z).
  { apply (small_multiple_is_zero _ (normalizeAngle a - v)).
    - rewrite Hj, Hk, minus_IZR. ring.
    - lra. }
  assert (j = k) by lia. subst j. lra.
Qed.

Lemma normalizeAngle_period (a : R) (k : Z) :
  normalizeAngle (a + 2 * PI * IZR k) = normalizeAngle a.
Proof.
  destruct (normalizeAngle_congruent a) as [j Hj].
  apply (normalizeAngle_unique _ _ (j - k)).
  - apply normalizeAngle_range.
  - rewrite Hj, minus_IZR. ring.
Qed.

Lemma normalizeAngle_id (a : R) : 0 <= a < 2 * PI -> normalizeAngle a = a.
Proof.
  intros Ha. apply (normalizeAngle_unique _ _ 0); [exact Ha | simpl; ring].
Qed.

Lemma normalizeAngle_wrap_forward (a : R) :
  - (2 * PI) <= a < 0 -> normalizeAngle a = a + 2 * PI.
Proof.
  intros Ha. apply (normalizeAngle_unique _ _ 1); [lra | simpl; ring].
Qed.

Lemma normalizeAngle_wrap_back (a : R) :
  2 * PI <= a < 4 * PI -> normalizeAngle a = a - 2 * PI.
Proof.
  intros Ha. apply (normalizeAngle_unique _ _ (-1)); [lra | simpl; ring].
Qed.

Lemma normalizeAngle_idempotent (a : R) :
  normalizeAngle (normalizeAngle a) = normalizeAngle a.
Proof. apply normalizeAngle_id, normalizeAngle_range. Qed.

(** C4. [normalizeAngle a] lies in $[0, 2\pi)$, differs from [a] by a whole
    number of turns, is unchanged when [k] whole turns are added to [a], and
    wraps the negative input $-\pi/2$ forward to $3\pi/2$. *)
Theorem normalizeAngle_spec (a : R) (k : Z) :
  0 <= normalizeAngle a < 2 * PI
  /\ (exists j : Z, normalizeAngle a = a + 2 * PI * IZR j)
  /\ normalizeAngle (a + 2 * PI * IZR k) = normalizeAngle a
  /\ normalizeAngle (- PI / 2) = 3 * PI / 2.
Proof.
  split; [apply normalizeAngle_range |].
  split; [apply normalizeAngle_congruent |].
  split; [apply normalizeAngle_period |].
  pose proof PI_RGT_0.
  rewrite normalizeAngle_wrap_forward; lra.
Qed.

(** ** Facts about [JS.atan2] and the polar conversions *)

Lemma cos_period_Z (a : R) (k : Z) : cos (a + 2 * PI * IZR k) = cos a.
Proof.
  destruct (Z_le_gt_dec 0 k) as [Hk | Hk].
  - destruct (Z_of_nat_complete k Hk) as [n ->].
    rewrite <- INR_IZR_INZ.
    replace (a + 2 * PI * INR n) with (a + 2 * INR n * PI) by ring.
    apply cos_period.
  - destruct (Z_of_nat_complete (- k)%Z ltac:(lia)) as [n Hn].
    rewrite <- (cos_period (a + 2 * PI * IZR k) n).
    f_equal. rewrite INR_IZR_INZ, <- Hn, opp_IZR. ring.
Qed.

Lemma sin_period_Z (a : R) (k : Z) : sin (a + 2 * PI * IZR k) = sin a.
Proof.
  destruct (Z_le_gt_dec 0 k) as [Hk | Hk].
  - destruct (Z_of_nat_complete k Hk) as [n ->].
    rewrite <- INR_IZR_INZ.
    replace (a + 2 * PI * INR n) with (a + 2 * INR n * PI) by ring.
    apply sin_period.
  - destruct (Z_of_nat_complete (- k)%Z ltac:(lia)) as [n Hn].
    rewrite <- (sin_period (a + 2 * PI * IZR k) n).
    f_equal. rewrite INR_IZR_INZ, <- Hn, opp_IZR. ring.
Qed.

Lemma cos_normalizeAngle (a : R) : cos (normalizeAngle a) = cos a.
Proof.
  destruct (normalizeAngle_congruent a) as [k ->]. apply cos_period_Z.
Qed.

Lemma sin_normalizeAngle (a : R) : sin (normalizeAngle a) = sin a.
Proof.
  destruct (normalizeAngle_congruent a) as [k ->]. apply sin_period_Z.
Qed.

Lemma cos_minus_PI (a : R) : cos (a - PI) = - cos a.
Proof.
  replace (cos a) with (cos ((a - PI) + PI)) by (f_equal; ring).
  rewrite neg_cos. ring.
Qed.

Lemma sin_minus_PI (a : R) : sin (a - PI) = - sin a.
Proof.
  replace (sin a) with (sin ((a - PI) + PI)) by (f_equal; ring).
  rewrite neg_sin. ring.
Qed.

Lemma sum_squares_nonneg (u v : R) : 0 <= u * u + v * v.
Proof. nra. Qed.

Lemma hypot_factor (u v : R) :
  u <> 0 ->
  0 < sqrt (1 + (v / u)²)
  /\ sqrt (u * u + v * v) = Rabs u * sqrt (1 + (v / u)²).
Proof.
  intros Hu.
  assert (Hpos : 0 < 1 + (v / u)²) by (unfold Rsqr; nra).
  split; [now apply sqrt_lt_R0 |].
  apply sqrt_lem_1.
  - apply sum_squares_nonneg.
  - apply Rmult_le_pos; [apply Rabs_pos | apply sqrt_pos].
  - replace (Rabs u * sqrt (1 + (v / u)²) * (Rabs u * sqrt (1 + (v / u)²)))
      with ((Rabs u * Rabs u) * (sqrt (1 + (v / u)²) * sqrt (1 + (v / u)²)))
      by ring.
    rewrite sqrt_sqrt by lra.
    replace (Rabs u * Rabs u) with (u * u)
      by (unfold Rabs; destruct (Rcase_abs u); ring).
    unfold Rsqr. field. exact Hu.
Qed.

Lemma atan2_polar (u v : R) :
  sqrt (u * u + v * v) * cos (JS.atan2 v u) = u
  /\ sqrt (u * u + v * v) * sin (JS.atan2 v u) = v.
Proof.
  unfold JS.atan2.
  destruct (Rlt_dec 0 u) as [Hu | Hu].
  - destruct (hypot_factor u v ltac:(lra)) as [Hs ->].
    rewrite cos_atan, sin_atan, Rabs_right by lra.
    split; field; lra.
  - destruct (Rlt_dec u 0) as [Hu' | Hu'].
    + destruct (hypot_factor u v ltac:(lra)) as [Hs ->].
      rewrite Rabs_left by lra.
      destruct (Rle_dec 0 v) as [Hv | Hv].
      * rewrite neg_cos, neg_sin, cos_atan, sin_atan.
        split; field; lra.
      * rewrite cos_minus_PI, sin_minus_PI, cos_atan, sin_atan.
        split; field; lra.
    + assert (u = 0) by lra. subst u.
      destruct (Rlt_dec 0 v) as [Hv | Hv].
      * rewrite cos_PI2, sin_PI2, Rmult_0_l, Rplus_0_l, sqrt_square by lra.
        split; ring.
      * destruct (Rlt_dec v 0) as [Hv' | Hv'].
        -- rewrite cos_neg, sin_neg, cos_PI2, sin_PI2, Rmult_0_l, Rplus_0_l.
           replace (v * v) with ((- v) * (- v)) by ring.
           rewrite sqrt_square by lra. split; ring.
        -- assert (v = 0) by lra. subst v.
           rewrite Rmult_0_l, Rplus_0_l, sqrt_0. split; ring.
Qed.

Lemma atan2_range (u v : R) : - PI < JS.atan2 v u <= PI.
Proof.
  unfold JS.atan2. pose proof PI_RGT_0 as Hp.
  pose proof (atan_bound (v / u)) as Hb.
  destruct (Rlt_dec 0 u) as [Hu | Hu]; [lra |].
  destruct (Rlt_dec u 0) as [Hu' | Hu'].
  - assert (Hinv : / u < 0) by now apply Rinv_lt_0_compat.
    destruct (Rle_dec 0 v) as [Hv | Hv].
    + assert (Hq : v / u <= 0) by (unfold Rdiv; nra).
      assert (atan (v / u) <= 0).
      { destruct Hq as [Hq | Hq].
        - left. rewrite <- atan_0. now apply atan_increasing.
        - rewrite Hq, atan_0. lra. }
      lra.
    + assert (Hq : 0 < v / u) by (unfold Rdiv; nra).
      assert (0 < atan (v / u)) by (rewrite <- atan_0; now apply atan_increasing).
      lra.
  - destruct (Rlt_dec 0 v); [lra |]. destruct (Rlt_dec v 0); lra.
Qed.

Lemma cos_eq_1_whole_turns (t : R) : cos t = 1 -> exists k : Z, t = 2 * PI * IZR k.
Proof.
  intros Ht.
  assert (Hs : sin (t / 2) = 0).
  { assert (H2 : cos (2 * (t / 2)) = 1) by (rewrite <- Ht; f_equal; field).
    rewrite cos_2a_sin in H2. nra. }
  destruct (sin_eq_0_0 _ Hs) as [k Hk]. exists k. lra.
Qed.

Lemma same_direction_whole_turns (t a : R) :
  cos t = cos a -> sin t = sin a -> exists k : Z, t = a + 2 * PI * IZR k.
Proof.
  intros Hc Hs.
  destruct (cos_eq_1_whole_turns (t - a)) as [k Hk].
  - rewrite cos_minus, Hc, Hs. pose proof (sin2_cos2 a) as H. unfold Rsqr in H. lra.
  - exists k. lra.
Qed.

Lemma calculateApparentWind_unfold (trueWind : WindData) (boatData : BoatData) :
  let X := wind_speed trueWind * cos (wind_angle trueWind)
           - boat_speed boatData * cos (heading boatData) in
  let Y := wind_speed trueWind * sin (wind_angle trueWind)
           - boat_speed boatData * sin (heading boatData) in
  calculateApparentWind trueWind boatData =
    {| wind_angle := normalizeAngle (JS.atan2 Y X);
       wind_speed := Rmax 0 (sqrt (X * X + Y * Y)) |}.
Proof. reflexivity. Qed.

Lemma Rmax_0_sqrt (z : R) : Rmax 0 (sqrt z) = sqrt z.
Proof. apply Rmax_right, sqrt_pos. Qed.

(** C1. [calculateApparentWind] returns the polar form of the cartesian
    difference.  With $dx = s_w \cos a_w - s_b \cos h$ and
    $dy = s_w \sin a_w - s_b \sin h$ (true wind minus boat velocity):
    [polarToCartesian] turns a polar pair into speed times (cos, sin) of its
    angle, [subtractVectors] of the two converted inputs is $(dx, dy)$,
    [cartesianToPolar] of it has the magnitude $\sqrt{dx^2 + dy^2}$ and an
    angle in $(-\pi, \pi]$ that points along $(dx, dy)$; the returned angle is
    that angle normalized into $[0, 2\pi)$, the returned speed is
    $\max(0, \sqrt{dx^2 + dy^2}) = \sqrt{dx^2 + dy^2}$, never negative, and
    speed times (cos, sin) of the returned angle is $(dx, dy)$. *)
Theorem calculateApparentWind_spec (trueWind : WindData) (boatData : BoatData) :
  let dx := wind_speed trueWind * cos (wind_angle trueWind)
            - boat_speed boatData * cos (heading boatData) in
  let dy := wind_speed trueWind * sin (wind_angle trueWind)
            - boat_speed boatData * sin (heading boatData) in
  let trueWindVector :=
    polarToCartesian {| polar_angle := wind_angle trueWind;
                        magnitude := wind_speed trueWind |} in
  let boatVector :=
    polarToCartesian {| polar_angle := heading boatData;
                        magnitude := boat_speed boatData |} in
  let polar := cartesianToPolar (subtractVectors trueWindVector boatVector) in
  let apparent := calculateApparentWind trueWind boatData in
  trueWindVector = {| x := wind_speed trueWind * cos (wind_angle trueWind);
                      y := wind_speed trueWind * sin (wind_angle trueWind) |}
  /\ boatVector = {| x := boat_speed boatData * cos (heading boatData);
                     y := boat_speed boatData * sin (heading boatData) |}
  /\ subtractVectors trueWindVector boatVector = {| x := dx; y := dy |}
  /\ magnitude polar = sqrt (dx * dx + dy * dy)
  /\ - PI < polar_angle polar <= PI
  /\ magnitude polar * cos (polar_angle polar) = dx
  /\ magnitude polar * sin (polar_angle polar) = dy
  /\ (exists k : Z, wind_angle apparent = polar_angle polar + 2 * PI * IZR k)
  /\ 0 <= wind_angle apparent < 2 * PI
  /\ wind_speed apparent = Rmax 0 (sqrt (dx * dx + dy * dy))
  /\ wind_speed apparent = sqrt (dx * dx + dy * dy)
  /\ 0 <= wind_speed apparent
  /\ wind_speed apparent * cos (wind_angle apparent) = dx
  /\ wind_speed apparent * sin (wind_angle apparent) = dy.
Proof.
  cbv zeta.
  split; [reflexivity |]. split; [reflexivity |]. split; [reflexivity |].
  set (dx := wind_speed trueWind * cos (wind_angle trueWind)
             - boat_speed boatData * cos (heading boatData)).
  set (dy := wind_speed trueWind * sin (wind_angle trueWind)
             - boat_speed boatData * sin (heading boatData)).
  assert (Hvec : subtractVectors
                   (polarToCartesian {| polar_angle := wind_angle trueWind;
                                        magnitude := wind_speed trueWind |})
                   (polarToCartesian {| polar_angle := heading boatData;
                                        magnitude := boat_speed boatData |})
                 = {| x := dx; y := dy |}) by reflexivity.
  rewrite calculateApparentWind_unfold. cbv zeta. fold dx dy.
  rewrite Hvec. unfold cartesianToPolar.
  cbn [x y polar_angle magnitude wind_angle wind_speed].
  destruct (atan2_polar dx dy) as [Hcos Hsin].
  split; [reflexivity |].
  split; [apply atan2_range |].
  split; [exact Hcos |]. split; [exact Hsin |].
  split; [apply normalizeAngle_congruent |].
  split; [apply normalizeAngle_range |].
  split; [reflexivity |].
  rewrite Rmax_0_sqrt.
  split; [reflexivity |].
  split; [apply sqrt_pos |].
  rewrite cos_normalizeAngle, sin_normalizeAngle.
  split; assumption.
Qed.

(** Zero boat speed leaves a true wind of positive speed unchanged. *)
Lemma zero_boat_speed_positive_wind (a s h : R) :
  0 <= a < 2 * PI -> 0 < s ->
  calculateApparentWind {| wind_angle := a; wind_speed := s |}
                        {| heading := h; boat_speed := 0 |}
  = {| wind_angle := a; wind_speed := s |}.
Proof.
  intros Ha Hs. rewrite calculateApparentWind_unfold.
  cbn [wind_angle wind_speed heading boat_speed].
  replace (s * cos a - 0 * cos h) with (s * cos a) by ring.
  replace (s * sin a - 0 * sin h) with (s * sin a) by ring.
  assert (Hmag : sqrt (s * cos a * (s * cos a) + s * sin a * (s * sin a)) = s).
  { apply sqrt_lem_1; [apply sum_squares_nonneg | lra |].
    pose proof (sin2_cos2 a) as H. unfold Rsqr in H. nra. }
  destruct (atan2_polar (s * cos a) (s * sin a)) as [Hc Hsn].
  rewrite Hmag in Hc, Hsn.
  destruct (same_direction_whole_turns (JS.atan2 (s * sin a) (s * cos a)) a)
    as [k Hk]; [nra | nra |].
  rewrite Hmag, Hk, normalizeAngle_period, normalizeAngle_id by exact Ha.
  f_equal. apply Rmax_right. lra.
Qed.

(** Zero boat speed and zero wind speed: for a true-wind angle in the first
    quadrant both components of the difference are the positive zero, and the
    result has the angle [atan2 0 0 = 0].  (For the other angles JavaScript
    decides by the signs of the zero components, which the reals do not
    carry; nothing is stated about them.) *)
Lemma zero_boat_speed_zero_wind (a h : R) :
  0 <= a <= PI / 2 ->
  calculateApparentWind {| wind_angle := a; wind_speed := 0 |}
                        {| heading := h; boat_speed := 0 |}
  = {| wind_angle := 0; wind_speed := 0 |}.
Proof.
  intros _.
  rewrite calculateApparentWind_unfold.
  cbn [wind_angle wind_speed heading boat_speed].
  replace (0 * cos a - 0 * cos h) with 0 by ring.
  replace (0 * sin a - 0 * sin h) with 0 by ring.
  rewrite Rmult_0_l, Rplus_0_l, sqrt_0.
  unfold JS.atan2.
  destruct (Rlt_dec 0 0) as [H | _]; [lra |].
  rewrite normalizeAngle_id by (pose proof PI_RGT_0; lra).
  f_equal. apply Rmax_left. lra.
Qed.

(** C9 (as stated) fails for a calm true wind: with speed 0 the returned
    angle is 0, not the normalized input angle 1. *)
Lemma zero_boat_speed_calm_wind_loses_angle :
  0 <= 1 < 2 * PI
  /\ calculateApparentWind {| wind_angle := 1; wind_speed := 0 |}
                           {| heading := 0; boat_speed := 0 |}
     <> {| wind_angle := 1; wind_speed := 0 |}.
Proof.
  pose proof PI2_1 as Hp.
  split; [lra |].
  rewrite zero_boat_speed_zero_wind by lra. intros H.
  apply (f_equal wind_angle) in H. cbn in H. lra.
Qed.

(** C9 (amended). With zero boat speed, a normalized true-wind angle and a
    true-wind speed that is not negative, the apparent wind has the speed of
    the true wind, and the angle of the true wind when that speed is
    positive.  When the speed is 0 the angle of the true wind is not
    restored: for a true-wind angle in the first quadrant the returned angle
    is 0. *)
Theorem zero_boat_speed_apparent_wind (a s h : R) :
  0 <= a < 2 * PI -> 0 <= s ->
  let apparent :=
    calculateApparentWind {| wind_angle := a; wind_speed := s |}
                          {| heading := h; boat_speed := 0 |} in
  wind_speed apparent = s
  /\ (0 < s -> wind_angle apparent = a)
  /\ (s = 0 -> a <= PI / 2 -> wind_angle apparent = 0).
Proof.
  intros Ha Hs. cbv zeta. split; [| split].
  - destruct Hs as [Hs | <-].
    + now rewrite zero_boat_speed_positive_wind.
    + rewrite calculateApparentWind_unfold.
      cbn [wind_angle wind_speed heading boat_speed].
      replace (0 * cos a - 0 * cos h) with 0 by ring.
      replace (0 * sin a - 0 * sin h) with 0 by ring.
      rewrite Rmult_0_l, Rplus_0_l, sqrt_0. apply Rmax_left. lra.
  - intros Hpos. now rewrite zero_boat_speed_positive_wind.
  - intros -> Hq. rewrite zero_boat_speed_zero_wind by lra. reflexivity.
Qed.

Lemma zero_boat_speed_apparent_wind_witness :
  wind_speed (calculateApparentWind {| wind_angle := 1; wind_speed := 10 |}
                                    {| heading := 2; boat_speed := 0 |}) = 10
  /\ wind_angle (calculateApparentWind {| wind_angle := 1; wind_speed := 10 |}
                                       {| heading := 2; boat_speed := 0 |}) = 1.
Proof.
  destruct (zero_boat_speed_apparent_wind 1 10 2) as (Hspeed & Hangle & _).
  - pose proof PI2_1. lra.
  - lra.
  - split; [exact Hspeed | apply Hangle; lra].
Defined.

(** ** Angle collision *)

Ltac real_cases :=
  unfold Rabs, Rmin, Rmax;
  repeat match goal with
         | |- context [Rcase_abs ?e] =>
             let H := fresh in destruct (Rcase_abs e) as [H | H]; revert H
         | |- context [Rle_dec ?a ?b] =>
             let H := fresh in destruct (Rle_dec a b) as [H | H]; revert H
         end;
  intros; try lra.

Lemma collision_distance_is_angularDistance (a1 a2 : R) :
  let diff := Rabs (normalizeAngle a1 - normalizeAngle a2) in
  Rmin diff (2 * PI - diff) = Spec.angularDistance a1 a2.
Proof.
  cbv zeta. unfold Spec.angularDistance, Spec.forwardDistance, Spec.backwardDistance.
  pose proof (normalizeAngle_range a1) as H1.
  pose proof (normalizeAngle_range a2) as H2.
  destruct (Rtotal_order (normalizeAngle a1) (normalizeAngle a2)) as [Hlt | [Heq | Hgt]].
  - rewrite (normalizeAngle_id (normalizeAngle a2 - normalizeAngle a1)) by lra.
    rewrite (normalizeAngle_wrap_forward (normalizeAngle a1 - normalizeAngle a2)) by lra.
    real_cases.
  - rewrite Heq, Rminus_diag, (normalizeAngle_id 0) by lra. real_cases.
  - rewrite (normalizeAngle_wrap_forward (normalizeAngle a2 - normalizeAngle a1)) by lra.
    rewrite (normalizeAngle_id (normalizeAngle a1 - normalizeAngle a2)) by lra.
    real_cases.
Qed.

Lemma angleCollision_true_iff (a1 a2 minSeparation : R) :
  angleCollision a1 a2 minSeparation = true
  <-> Rmin (Rabs (normalizeAngle a1 - normalizeAngle a2))
           (2 * PI - Rabs (normalizeAngle a1 - normalizeAngle a2)) < minSeparation.
Proof.
  unfold angleCollision.
  destruct (Rlt_dec _ _) as [H | H]; split; intros; try easy.
Qed.

Lemma degToRad_range (d : R) : 0 <= d < 360 -> 0 <= degToRad d < 2 * PI.
Proof. intros Hd. unfold degToRad. pose proof PI_RGT_0. split; nra. Qed.

Lemma normalizeAngle_degrees (d : R) :
  0 <= d < 360 -> normalizeAngle (degToRad d) = degToRad d.
Proof. intros Hd. apply normalizeAngle_id, degToRad_range, Hd. Qed.

(** C8. [angleCollision] holds exactly when the smaller of the forward and
    the backward angular distance between the normalized angles is strictly
    below the separation; 355 degrees and 5 degrees are 10 degrees apart and
    collide for a separation of 20 degrees. *)
Theorem angleCollision_spec (a1 a2 minSeparation : R) :
  (angleCollision a1 a2 minSeparation = true
   <-> Spec.angularDistance a1 a2 < minSeparation)
  /\ Spec.angularDistance (degToRad 355) (degToRad 5) = degToRad 10
  /\ angleCollision (degToRad 355) (degToRad 5) (degToRad 20) = true.
Proof.
  split; [| split].
  - rewrite angleCollision_true_iff.
    now rewrite (collision_distance_is_angularDistance a1 a2).
  - rewrite <- collision_distance_is_angularDistance.
    rewrite !normalizeAngle_degrees by lra.
    unfold degToRad. pose proof PI_RGT_0. real_cases.
  - apply angleCollision_true_iff.
    rewrite !normalizeAngle_degrees by lra.
    unfold degToRad. pose proof PI_RGT_0. real_cases.
Qed.

(** ** Angle constraint *)

Lemma degToRad_plus (a b : R) : degToRad a + degToRad b = degToRad (a + b).
Proof. unfold degToRad. field. Qed.

Lemma degToRad_minus (a b : R) : degToRad a - degToRad b = degToRad (a - b).
Proof. unfold degToRad. field. Qed.

Lemma normalizeAngle_degrees_below (d : R) :
  -360 <= d < 0 -> normalizeAngle (degToRad d) = degToRad (d + 360).
Proof.
  intros Hd. rewrite normalizeAngle_wrap_forward.
  - unfold degToRad. field.
  - unfold degToRad. pose proof PI_RGT_0. split; nra.
Qed.

Lemma normalizeAngle_degrees_above (d : R) :
  360 <= d < 720 -> normalizeAngle (degToRad d) = degToRad (d - 360).
Proof.
  intros Hd. rewrite normalizeAngle_wrap_back.
  - unfold degToRad. field.
  - unfold degToRad. pose proof PI_RGT_0. split; nra.
Qed.

(** Evaluation of the kernel on angles given in whole degrees. *)
Ltac eval_degrees :=
  repeat (rewrite ?degToRad_plus, ?degToRad_minus;
          first [ rewrite normalizeAngle_degrees by lra
                | rewrite normalizeAngle_degrees_below by lra
                | rewrite normalizeAngle_degrees_above by lra ]).

Ltac decide_Rlt :=
  match goal with
  | |- context [Rlt_dec ?a ?b] =>
      let H := fresh "H" in
      destruct (Rlt_dec a b) as [H | H];
      [ try solve [exfalso; revert H; unfold degToRad; real_cases; intros; lra]
      | try solve [exfalso; apply H; unfold degToRad; real_cases] ]
  end.

Lemma constrainAngle_test_case :
  constrainAngle (degToRad 5) [degToRad 0; degToRad 90] (degToRad 10) = degToRad 10.
Proof.
  pose proof PI_RGT_0 as Hpi.
  unfold constrainAngle. cbn [fold_left].
  unfold constrainStep at 2. unfold angleCollision.
  eval_degrees. decide_Rlt. decide_Rlt.
  unfold constrainStep, angleCollision.
  eval_degrees. decide_Rlt.
  f_equal. lra.
Qed.

(** C7. Proposing 358 degrees against an existing angle of 355 degrees with a
    separation of 10 degrees: the candidates are 5 and 345 degrees, the
    candidate 5 is nearer in angular distance (7 against 13 degrees), and
    [constrainAngle] returns 345 degrees; the reference definition returns
    5 degrees. *)
Theorem constrainAngle_wraparound_picks_farther :
  normalizeAngle (normalizeAngle (degToRad 355) + degToRad 10) = degToRad 5
  /\ normalizeAngle (normalizeAngle (degToRad 355) - degToRad 10) = degToRad 345
  /\ Spec.angularDistance (degToRad 358) (degToRad 5) = degToRad 7
  /\ Spec.angularDistance (degToRad 358) (degToRad 345) = degToRad 13
  /\ constrainAngle (degToRad 358) [degToRad 355] (degToRad 10) = degToRad 345
  /\ Spec.constrainAngle (degToRad 358) [degToRad 355] (degToRad 10) = degToRad 5.
Proof.
  pose proof PI_RGT_0 as Hpi.
  assert (H7 : Spec.angularDistance (degToRad 358) (degToRad 5) = degToRad 7).
  { rewrite <- collision_distance_is_angularDistance. eval_degrees.
    unfold degToRad. real_cases. }
  assert (H13 : Spec.angularDistance (degToRad 358) (degToRad 345) = degToRad 13).
  { rewrite <- collision_distance_is_angularDistance. eval_degrees.
    unfold degToRad. real_cases. }
  repeat split.
  - eval_degrees. f_equal. lra.
  - eval_degrees. f_equal. lra.
  - exact H7.
  - exact H13.
  - unfold constrainAngle. cbn [fold_left].
    unfold constrainStep, angleCollision.
    eval_degrees. decide_Rlt. decide_Rlt. f_equal. lra.
  - unfold Spec.constrainAngle. cbn [fold_left].
    unfold Spec.constrainStep, angleCollision.
    eval_degrees. decide_Rlt.
    replace (355 + 10 - 360) with 5 by lra.
    replace (355 - 10) with 345 by lra.
    rewrite H7, H13. decide_Rlt. reflexivity.
Qed.

(** ** The speed getters *)

Import Store.

Lemma div_finite (a b : R) : b <> 0 -> JS.div a b = JS.Finite (a / b).
Proof.
  intros Hb. unfold JS.div. destruct (Req_dec_T b 0); [contradiction | reflexivity].
Qed.

Lemma div_by_zero_not_finite (a : R) : JS.finite (JS.mul (JS.div a 0) 30) = None
                                       /\ JS.finite (JS.mul (JS.div a 0) 20) = None.
Proof.
  unfold JS.div.
  destruct (Req_dec_T 0 0) as [_ | H]; [| contradiction H; reflexivity].
  destruct (Req_dec_T a 0); [split; reflexivity |].
  destruct (Rlt_dec 0 a); cbn;
    repeat match goal with
           | |- context [Req_dec_T ?u 0] => destruct (Req_dec_T u 0); [lra |]
           | |- context [Rlt_dec 0 ?u] => destruct (Rlt_dec 0 u); [| lra]
           end; split; reflexivity.
Qed.

Lemma interpolation_nonneg (r lo hi cap : R) :
  lo < hi -> lo <= r -> 0 <= cap -> 0 <= (r - lo) / (hi - lo) * cap.
Proof.
  intros Hb Hr Hc.
  apply Rmult_le_pos; [| exact Hc].
  apply Rmult_le_pos; [lra |]. left. apply Rinv_0_lt_compat. lra.
Qed.

Lemma windSpeed_finite (s : SailingState) :
  minRadius (windRing s) <> maxRadius (windRing s) ->
  windSpeed s =
    JS.Finite ((radius (windRing s) - minRadius (windRing s))
               / (maxRadius (windRing s) - minRadius (windRing s)) * 30).
Proof.
  intros H. unfold windSpeed. rewrite div_finite by lra. reflexivity.
Qed.

Lemma boatSpeed_finite (s : SailingState) :
  minRadius (boatRing s) <> maxRadius (boatRing s) ->
  boatSpeed s =
    JS.Finite ((radius (boatRing s) - minRadius (boatRing s))
               / (maxRadius (boatRing s) - minRadius (boatRing s)) * 20).
Proof.
  intros H. unfold boatSpeed. rewrite div_finite by lra. reflexivity.
Qed.

Lemma updateCanvasDimensions_rings (w h : R) (s : SailingState) :
  let maxSize := Rmin w h * 0.4 in
  windRing (updateCanvasDimensions w h s) =
    {| angle := angle (windRing s);
       radius := Rmin (radius (windRing s)) maxSize;
       spokes := spokes (windRing s);
       minRadius := maxSize * 0.4;
       maxRadius := maxSize |}
  /\ boatRing (updateCanvasDimensions w h s) =
    {| angle := angle (boatRing s);
       radius := Rmin (radius (boatRing s)) (maxSize * 0.8);
       spokes := spokes (boatRing s);
       minRadius := maxSize * 0.3;
       maxRadius := maxSize * 0.8 |}.
Proof. split; reflexivity. Qed.

(** C6 (as stated) fails: on a canvas of size 0 both rings collapse to
    [minRadius = maxRadius = radius = 0] and each getter divides 0 by 0, giving
    [NaN] and not 0; and after a resize to 1600 x 1200 both speeds are
    negative. *)
Lemma speed_getters_divide_by_zero :
  let collapsed := updateCanvasDimensions 0 0 initialState in
  let enlarged := updateCanvasDimensions 1600 1200 initialState in
  maxRadius (windRing collapsed) <= minRadius (windRing collapsed)
  /\ maxRadius (boatRing collapsed) <= minRadius (boatRing collapsed)
  /\ windSpeed collapsed = JS.NaN
  /\ boatSpeed collapsed = JS.NaN
  /\ windSpeed collapsed <> JS.Finite 0
  /\ boatSpeed collapsed <> JS.Finite 0
  /\ windSpeed enlarged = JS.Finite (- (5 / 4))
  /\ boatSpeed enlarged = JS.Finite (- 2).
Proof.
  cbv zeta.
  assert (Hw : windSpeed (updateCanvasDimensions 0 0 initialState) = JS.NaN).
  { unfold windSpeed, JS.div; cbn.
    destruct (Req_dec_T _ 0) as [_ | H]; [| exfalso; apply H; real_cases].
    destruct (Req_dec_T _ 0) as [_ | H]; [| exfalso; apply H; real_cases].
    reflexivity. }
  assert (Hb : boatSpeed (updateCanvasDimensions 0 0 initialState) = JS.NaN).
  { unfold boatSpeed, JS.div; cbn.
    destruct (Req_dec_T _ 0) as [_ | H]; [| exfalso; apply H; real_cases].
    destruct (Req_dec_T _ 0) as [_ | H]; [| exfalso; apply H; real_cases].
    reflexivity. }
  repeat split.
  - cbn. real_cases.
  - cbn. real_cases.
  - exact Hw.
  - exact Hb.
  - rewrite Hw. discriminate.
  - rewrite Hb. discriminate.
  - rewrite windSpeed_finite by (cbn; real_cases).
    f_equal. cbn. replace (Rmin 1600 1200) with 1200 by real_cases.
    replace (Rmin 180 (1200 * 0.4)) with 180 by real_cases. lra.
  - rewrite boatSpeed_finite by (cbn; real_cases).
    f_equal. cbn. replace (Rmin 1600 1200) with 1200 by real_cases.
    replace (Rmin 120 (1200 * 0.4 * 0.8)) with 120 by real_cases. lra.
Qed.

(** C6 (amended). The getters interpolate without a guard: for a ring with
    [minRadius < maxRadius] and [minRadius <= radius] the speed is the finite
    value [(radius - minRadius) / (maxRadius - minRadius) * cap] (cap 30
    for the wind, 20 for the boat) and is not negative; for a ring with
    [maxRadius = minRadius] the division is by zero and the speed is not a
    finite number. *)
Theorem speed_getters_unguarded (s : SailingState) :
  (minRadius (windRing s) < maxRadius (windRing s) ->
   minRadius (windRing s) <= radius (windRing s) ->
   exists v : R,
     windSpeed s = JS.Finite v
     /\ v = (radius (windRing s) - minRadius (windRing s))
            / (maxRadius (windRing s) - minRadius (windRing s)) * 30
     /\ 0 <= v)
  /\ (minRadius (boatRing s) < maxRadius (boatRing s) ->
      minRadius (boatRing s) <= radius (boatRing s) ->
      exists v : R,
        boatSpeed s = JS.Finite v
        /\ v = (radius (boatRing s) - minRadius (boatRing s))
               / (maxRadius (boatRing s) - minRadius (boatRing s)) * 20
        /\ 0 <= v)
  /\ (maxRadius (windRing s) = minRadius (windRing s) ->
      JS.finite (windSpeed s) = None)
  /\ (maxRadius (boatRing s) = minRadius (boatRing s) ->
      JS.finite (boatSpeed s) = None).
Proof.
  repeat split.
  - intros Hb Hr. eexists. split; [apply windSpeed_finite; lra |].
    split; [reflexivity | apply interpolation_nonneg; lra].
  - intros Hb Hr. eexists. split; [apply boatSpeed_finite; lra |].
    split; [reflexivity | apply interpolation_nonneg; lra].
  - intros He. unfold windSpeed. rewrite He, Rminus_diag.
    apply div_by_zero_not_finite.
  - intros He. unfold boatSpeed. rewrite He, Rminus_diag.
    apply div_by_zero_not_finite.
Qed.

Lemma speed_getters_unguarded_witness :
  (exists v : R,
     windSpeed initialState = JS.Finite v
     /\ v = (radius (windRing initialState) - minRadius (windRing initialState))
            / (maxRadius (windRing initialState) - minRadius (windRing initialState))
            * 30
     /\ 0 <= v)
  /\ JS.finite (windSpeed (updateCanvasDimensions 0 0 initialState)) = None.
Proof.
  split.
  - apply (proj1 (speed_getters_unguarded initialState)); cbn; lra.
  - apply (proj1 (proj2 (proj2 (speed_getters_unguarded
                                   (updateCanvasDimensions 0 0 initialState))))).
    cbn. real_cases.
Defined.

(** ** Canvas resize and the ring bounds *)

Lemma updateCanvasDimensions_upper_bounds (w h : R) (s : SailingState) :
  radius (windRing (updateCanvasDimensions w h s))
    <= maxRadius (windRing (updateCanvasDimensions w h s))
  /\ radius (boatRing (updateCanvasDimensions w h s))
    <= maxRadius (boatRing (updateCanvasDimensions w h s)).
Proof. cbn. split; apply Rmin_r. Qed.

Lemma updateCanvasDimensions_bounds_ordered (w h : R) (s : SailingState) :
  0 < w -> 0 < h ->
  minRadius (windRing (updateCanvasDimensions w h s))
    < maxRadius (windRing (updateCanvasDimensions w h s))
  /\ minRadius (boatRing (updateCanvasDimensions w h s))
    < maxRadius (boatRing (updateCanvasDimensions w h s)).
Proof.
  intros Hw Hh. cbn.
  assert (0 < Rmin w h) by (apply Rmin_glb_lt; assumption).
  split; lra.
Qed.

Lemma updateCanvasDimensions_lower_bounds_iff (w h : R) (s : SailingState) :
  0 < w -> 0 < h ->
  (Spec.radiusWithinBounds (windRing (updateCanvasDimensions w h s))
   <-> Rmin w h * 0.4 * 0.4 <= radius (windRing s))
  /\ (Spec.radiusWithinBounds (boatRing (updateCanvasDimensions w h s))
      <-> Rmin w h * 0.4 * 0.3 <= radius (boatRing s)).
Proof.
  intros Hw Hh. unfold Spec.radiusWithinBounds. cbn.
  assert (0 < Rmin w h) by (apply Rmin_glb_lt; assumption).
  split; split; intros Hx.
  - destruct Hx as [Hlo _].
    pose proof (Rmin_l (radius (windRing s)) (Rmin w h * 0.4)). lra.
  - split; [apply Rmin_glb; lra | apply Rmin_r].
  - destruct Hx as [Hlo _].
    pose proof (Rmin_l (radius (boatRing s)) (Rmin w h * 0.4 * 0.8)). lra.
  - split; [apply Rmin_glb; lra | apply Rmin_r].
Qed.

(** C2. Resizing the initial store to 1600 x 1200 leaves both radii where they
    were (180 and 120) while the lower bounds move above them (192 and 144):
    [updateCanvasDimensions] clamps against [maxRadius] only, and neither ring
    satisfies [minRadius <= radius <= maxRadius] afterwards. *)
Theorem updateCanvasDimensions_misses_lower_bound :
  let s := updateCanvasDimensions 1600 1200 initialState in
  Spec.radiusWithinBounds (windRing initialState)
  /\ Spec.radiusWithinBounds (boatRing initialState)
  /\ radius (windRing s) = 180
  /\ minRadius (windRing s) = 192
  /\ maxRadius (windRing s) = 480
  /\ radius (boatRing s) = 120
  /\ minRadius (boatRing s) = 144
  /\ maxRadius (boatRing s) = 384
  /\ ~ Spec.radiusWithinBounds (windRing s)
  /\ ~ Spec.radiusWithinBounds (boatRing s).
Proof.
  cbv zeta. unfold Spec.radiusWithinBounds. cbn.
  replace (Rmin 1600 1200) with 1200 by real_cases.
  replace (Rmin 180 (1200 * 0.4)) with 180 by real_cases.
  replace (Rmin 120 (1200 * 0.4 * 0.8)) with 120 by real_cases.
  repeat split; try lra; intros [Hlo Hhi]; lra.
Qed.

(** ** Freshness of the stored apparent wind *)

Lemma derivedApparentWind_set_apparentWind (w : WindData) (s : SailingState) :
  derivedApparentWind (set_apparentWind w s) = derivedApparentWind s.
Proof. reflexivity. Qed.

Lemma calculateApparentWind_fresh (s s' : SailingState) :
  Store.calculateApparentWind s = Some s' ->
  Spec.apparentWindFresh s'
  /\ windRing s' = windRing s /\ boatRing s' = boatRing s
  /\ canvas s' = canvas s /\ selectedRing s' = selectedRing s
  /\ isDragging s' = isDragging s /\ dragStart s' = dragStart s.
Proof.
  unfold Store.calculateApparentWind, Spec.apparentWindFresh.
  destruct (derivedApparentWind s) as [w |] eqn:Hd; [| discriminate].
  intros H. injection H as <-.
  rewrite derivedApparentWind_set_apparentWind, Hd. cbn. repeat split.
Qed.

Lemma calculateApparentWind_total (s : SailingState) :
  minRadius (windRing s) <> maxRadius (windRing s) ->
  minRadius (boatRing s) <> maxRadius (boatRing s) ->
  exists s', Store.calculateApparentWind s = Some s'.
Proof.
  intros Hw Hb. unfold Store.calculateApparentWind, derivedApparentWind.
  rewrite windSpeed_finite, boatSpeed_finite by assumption. cbn. eauto.
Qed.

Lemma updateCanvasDimensions_keeps_apparentWind (w h : R) (s : SailingState) :
  apparentWind (updateCanvasDimensions w h s) = apparentWind s.
Proof. reflexivity. Qed.

Lemma atan2_positive_x_axis (u : R) : 0 < u -> JS.atan2 0 u = 0.
Proof.
  intros Hu. unfold JS.atan2. destruct (Rlt_dec 0 u); [| contradiction].
  unfold Rdiv. rewrite Rmult_0_l. apply atan_0.
Qed.

Lemma calculateApparentWind_aligned (a h ws bs : R) :
  a = 0 -> h = 0 -> bs < ws ->
  WindCalculations.calculateApparentWind
    {| wind_angle := a; wind_speed := ws |} {| heading := h; boat_speed := bs |}
  = {| wind_angle := 0; wind_speed := ws - bs |}.
Proof.
  intros -> -> Hlt. rewrite calculateApparentWind_unfold.
  cbn [wind_angle wind_speed heading boat_speed].
  rewrite cos_0, sin_0.
  replace (ws * 1 - bs * 1) with (ws - bs) by ring.
  replace (ws * 0 - bs * 0) with 0 by ring.
  rewrite atan2_positive_x_axis by lra.
  rewrite normalizeAngle_id by (pose proof PI_RGT_0; lra).
  rewrite Rmult_0_l, Rplus_0_r, sqrt_square by lra.
  f_equal. apply Rmax_right. lra.
Qed.

Lemma derivedApparentWind_aligned (s : SailingState) (ws bs : R) :
  angle (windRing s) = 0 -> angle (boatRing s) = 0 ->
  windSpeed s = JS.Finite ws -> boatSpeed s = JS.Finite bs -> bs < ws ->
  derivedApparentWind s = Some {| wind_angle := 0; wind_speed := ws - bs |}.
Proof.
  intros Ha Hh Hw Hb Hlt. unfold derivedApparentWind. rewrite Hw, Hb. cbn [JS.finite].
  f_equal. now apply calculateApparentWind_aligned.
Qed.

Lemma calculateApparentWind_result (s : SailingState) (w : WindData) :
  derivedApparentWind s = Some w ->
  Store.calculateApparentWind s = Some (set_apparentWind w s).
Proof. intros H. unfold Store.calculateApparentWind. now rewrite H. Qed.

Lemma AppStore_updateRingDrag_dragging (p : Vector2D) (s : SailingState)
  (sel : RingType) :
  selectedRing s = Some sel -> isDragging s = true ->
  let ring := ringOf sel s in
  let dx := x p - centerX (canvas s) in
  let dy := y p - centerY (canvas s) in
  AppStore.updateRingDrag p s =
    Store.calculateApparentWind
      (set_dragStart (Some p)
         (set_ringOf sel
            (set_angle (normalizeAngle (JS.atan2 dy dx))
               (set_radius
                  (Rmax (minRadius ring) (Rmin (maxRadius ring) (sqrt (dx * dx + dy * dy))))
                  ring))
            s)).
Proof.
  intros Hsel Hdrag. unfold AppStore.updateRingDrag. now rewrite Hsel, Hdrag.
Qed.

Lemma degToRad_0 : degToRad 0 = 0.
Proof. unfold degToRad. field. Qed.

Lemma drag_boat_east :
  AppStore.updateRingDrag {| x := 520; y := 300 |}
    (startRingDrag boat {| x := 520; y := 300 |} initialState)
  = Some Scenario.boatDraggedEast.
Proof.
  rewrite (AppStore_updateRingDrag_dragging _ _ boat) by reflexivity.
  cbn [ringOf startRingDrag boatRing canvas initialState x y centerX centerY
       minRadius maxRadius].
  replace (300 - 300) with 0 by lra. replace (520 - 400) with 120 by lra.
  rewrite atan2_positive_x_axis by lra.
  rewrite normalizeAngle_id by (pose proof PI_RGT_0; lra).
  rewrite Rmult_0_l, Rplus_0_r, sqrt_square by lra.
  replace (Rmax 60 (Rmin 180 120)) with 120 by real_cases.
  erewrite calculateApparentWind_result.
  - reflexivity.
  - replace (130 / 17) with ((180 - 80) / (250 - 80) * 30 - (120 - 60) / (180 - 60) * 20)
      by lra.
    apply derivedApparentWind_aligned.
    + apply degToRad_0.
    + reflexivity.
    + apply windSpeed_finite. cbn. lra.
    + apply boatSpeed_finite. cbn. lra.
    + lra.
Qed.

Lemma resized_speeds :
  let resized := updateCanvasDimensions 1000 800 Scenario.boatDraggedEast in
  windSpeed resized = JS.Finite (65 / 8) /\ boatSpeed resized = JS.Finite 3.
Proof.
  cbv zeta. split.
  - rewrite windSpeed_finite by (cbn; real_cases).
    f_equal. cbn. replace (Rmin 1000 800) with 800 by real_cases.
    replace (Rmin 180 (800 * 0.4)) with 180 by real_cases. lra.
  - rewrite boatSpeed_finite by (cbn; real_cases).
    f_equal. cbn. replace (Rmin 1000 800) with 800 by real_cases.
    replace (Rmin 120 (800 * 0.4 * 0.8)) with 120 by real_cases. lra.
Qed.

(** C3. The initial store, with the boat ring dragged onto the reference
    axis, holds a fresh apparent wind of 130/17 knots; after
    [updateCanvasDimensions 1000 800] the stored value is still 130/17 knots
    while the rings now derive 41/8 knots: the resize does not recompute the
    apparent wind. *)
Theorem resize_leaves_apparentWind_stale :
  let p := {| x := 520; y := 300 |} in
  let resized := updateCanvasDimensions 1000 800 Scenario.boatDraggedEast in
  AppStore.updateRingDrag p (startRingDrag boat p initialState)
    = Some Scenario.boatDraggedEast
  /\ Spec.apparentWindFresh Scenario.boatDraggedEast
  /\ apparentWind resized = {| wind_angle := 0; wind_speed := 130 / 17 |}
  /\ derivedApparentWind resized = Some {| wind_angle := 0; wind_speed := 41 / 8 |}
  /\ ~ Spec.apparentWindFresh resized.
Proof.
  cbv zeta.
  assert (Hd : derivedApparentWind (updateCanvasDimensions 1000 800 Scenario.boatDraggedEast)
               = Some {| wind_angle := 0; wind_speed := 41 / 8 |}).
  { destruct resized_speeds as [Hw Hb].
    replace (41 / 8) with (65 / 8 - 3) by lra.
    apply derivedApparentWind_aligned; try assumption.
    - apply degToRad_0.
    - reflexivity.
    - lra. }
  split; [apply drag_boat_east |].
  split; [exact (proj1 (calculateApparentWind_fresh _ _ drag_boat_east)) |].
  split; [reflexivity |].
  split; [exact Hd |].
  unfold Spec.apparentWindFresh. rewrite Hd. cbn [apparentWind updateCanvasDimensions Scenario.boatDraggedEast].
  intros H. injection H as H. lra.
Qed.

(** ** Frame lemmas for the ring updates *)

Lemma set_ringOf_frame (sel : RingType) (r : Ring) (s : SailingState) :
  ringOf sel (set_ringOf sel r s) = r
  /\ ringOf (Spec.otherRing sel) (set_ringOf sel r s) = ringOf (Spec.otherRing sel) s
  /\ selectedRing (set_ringOf sel r s) = selectedRing s
  /\ isDragging (set_ringOf sel r s) = isDragging s
  /\ dragStart (set_ringOf sel r s) = dragStart s
  /\ canvas (set_ringOf sel r s) = canvas s
  /\ apparentWind (set_ringOf sel r s) = apparentWind s.
Proof. destruct sel; repeat split. Qed.

Lemma boundsDistinct_set_ringOf (sel : RingType) (r : Ring) (s : SailingState) :
  minRadius r = minRadius (ringOf sel s) -> maxRadius r = maxRadius (ringOf sel s) ->
  Spec.boundsDistinct s -> Spec.boundsDistinct (set_ringOf sel r s).
Proof.
  unfold Spec.boundsDistinct. intros Hlo Hhi [Hw Hb].
  destruct sel; cbn in *; rewrite ?Hlo, ?Hhi; split; assumption.
Qed.

Lemma calculateApparentWind_keeps_bounds (s s' : SailingState) :
  Store.calculateApparentWind s = Some s' ->
  Spec.boundsDistinct s -> Spec.boundsDistinct s'.
Proof.
  intros H [Hw Hb]. apply calculateApparentWind_fresh in H.
  destruct H as (_ & Ew & Eb & _). unfold Spec.boundsDistinct. now rewrite Ew, Eb.
Qed.

Lemma ringOf_after_recompute (sel : RingType) (s s' : SailingState) :
  Store.calculateApparentWind s = Some s' -> ringOf sel s' = ringOf sel s.
Proof.
  intros H. apply calculateApparentWind_fresh in H.
  destruct H as (_ & Ew & Eb & _). destruct sel; assumption.
Qed.

(** ** Keyboard nudging *)

Lemma moveSelectedRing_unselected (d : Direction) (step : R) (s : SailingState) :
  selectedRing s = None -> moveSelectedRing d step s = Some s.
Proof. intros H. unfold moveSelectedRing. now rewrite H. Qed.

Lemma moveSelectedRing_effect (d : Direction) (step : R) (s s' : SailingState) :
  moveSelectedRing d step s = Some s' ->
  selectedRing s' = selectedRing s
  /\ isDragging s' = isDragging s
  /\ dragStart s' = dragStart s
  /\ canvas s' = canvas s
  /\ (forall sel, selectedRing s = Some sel ->
        ringOf (Spec.otherRing sel) s' = ringOf (Spec.otherRing sel) s
        /\ Spec.apparentWindFresh s').
Proof.
  unfold moveSelectedRing.
  destruct (selectedRing s) as [sel |] eqn:Hsel.
  - intros H.
    pose proof (ringOf_after_recompute (Spec.otherRing sel) _ _ H) as Ho.
    destruct (calculateApparentWind_fresh _ _ H) as (Hf & _ & _ & Hc & Hs & Hd & Hst).
    match type of H with
    | Store.calculateApparentWind (set_ringOf _ ?r _) = _ =>
        destruct (set_ringOf_frame sel r s) as (_ & Fo & Fs & Fd & Fst & Fc & _)
    end.
    split; [congruence |]. split; [congruence |].
    split; [congruence |]. split; [congruence |].
    intros sel' E. injection E as <-. split; [congruence | exact Hf].
  - intros H. injection H as <-.
    split; [congruence |]. split; [reflexivity |].
    split; [reflexivity |]. split; [reflexivity |].
    intros sel E. discriminate.
Qed.

Lemma moveSelectedRing_total (d : Direction) (step : R) (s : SailingState) :
  Spec.boundsDistinct s -> exists s', moveSelectedRing d step s = Some s'
                                      /\ Spec.boundsDistinct s'.
Proof.
  intros Hb. unfold moveSelectedRing.
  destruct (selectedRing s) as [sel |]; [| eauto].
  match goal with
  | |- exists _, Store.calculateApparentWind ?t = _ /\ _ =>
      assert (Ht : Spec.boundsDistinct t)
        by (apply boundsDistinct_set_ringOf; [destruct d; reflexivity .. | exact Hb]);
      destruct (calculateApparentWind_total t (proj1 Ht) (proj2 Ht)) as [s' Hs']
  end.
  exists s'. split; [exact Hs' |]. eapply calculateApparentWind_keeps_bounds; eauto.
Qed.

(** ** Dragging *)

Lemma AppStore_updateRingDrag_idle (p : Vector2D) (s : SailingState) :
  selectedRing s = None \/ isDragging s = false ->
  AppStore.updateRingDrag p s = Some s.
Proof.
  intros [H | H]; unfold AppStore.updateRingDrag; rewrite H;
    [reflexivity | now destruct (selectedRing s)].
Qed.

Lemma RootStore_updateRingDrag_idle (p : Vector2D) (s : SailingState) :
  selectedRing s = None \/ dragStart s = None \/ isDragging s = false ->
  RootStore.updateRingDrag p s = Some s.
Proof.
  intros [H | [H | H]]; unfold RootStore.updateRingDrag; rewrite H.
  - reflexivity.
  - now destruct (selectedRing s).
  - now destruct (selectedRing s), (dragStart s).
Qed.

Lemma RootStore_updateRingDrag_dragging (p start : Vector2D) (s : SailingState)
  (sel : RingType) :
  selectedRing s = Some sel -> dragStart s = Some start -> isDragging s = true ->
  let ring := ringOf sel s in
  let startRadius := distance start (Spec.center s) in
  let currentRadius := distance p (Spec.center s) in
  let deltaR := currentRadius - startRadius in
  let startAngle := JS.atan2 (y start - y (Spec.center s)) (x start - x (Spec.center s)) in
  let currentAngle := JS.atan2 (y p - y (Spec.center s)) (x p - x (Spec.center s)) in
  let deltaTheta := normalizeAngle (currentAngle - startAngle) in
  RootStore.updateRingDrag p s =
    Store.calculateApparentWind
      (set_dragStart (Some p)
         (set_ringOf sel
            (if Rgt_dec (Rabs deltaR) (Rabs (startRadius * deltaTheta))
             then set_radius
                    (Rmax (minRadius ring) (Rmin (maxRadius ring) (radius ring + deltaR)))
                    ring
             else set_angle (normalizeAngle (angle ring + deltaTheta)) ring)
            s)).
Proof.
  intros Hsel Hstart Hdrag. cbv zeta.
  unfold RootStore.updateRingDrag. rewrite Hsel, Hstart, Hdrag.
  cbn [negb x y Spec.center]. unfold distance. cbn [x y].
  replace ((x start - centerX (canvas s)) ^ 2) with
    ((x start - centerX (canvas s)) * (x start - centerX (canvas s))) by ring.
  replace ((y start - centerY (canvas s)) ^ 2) with
    ((y start - centerY (canvas s)) * (y start - centerY (canvas s))) by ring.
  replace ((x p - centerX (canvas s)) ^ 2) with
    ((x p - centerX (canvas s)) * (x p - centerX (canvas s))) by ring.
  replace ((y p - centerY (canvas s)) ^ 2) with
    ((y p - centerY (canvas s)) * (y p - centerY (canvas s))) by ring.
  destruct (Rgt_dec _ _); reflexivity.
Qed.

Lemma distance_on_axis (a c b : R) :
  c <= a -> distance {| x := a; y := b |} {| x := c; y := b |} = a - c.
Proof.
  intros H. unfold distance. cbn [x y].
  rewrite Rminus_diag, Rmult_0_l, Rplus_0_r. apply sqrt_square. lra.
Qed.

Lemma getRingAt_near_wind :
  Controller.getRingAt {| x := 590; y := 300 |} initialState = Some wind.
Proof.
  unfold Controller.getRingAt.
  cbn [initialState canvas centerX centerY windRing boatRing radius].
  rewrite distance_on_axis by lra.
  destruct (Rlt_dec _ _) as [_ | H]; [reflexivity | exfalso; apply H; real_cases].
Qed.

(** Pressing at distance 190 from the center (inside the tolerance band of
    the wind ring, radius 180) and moving outward to distance 200. *)
Lemma drag_wind_outward :
  exists g : Controller.Gestures,
    Controller.run [Controller.MouseDown {| x := 590; y := 300 |};
                    Controller.MouseMove {| x := 600; y := 300 |}]
                   Scenario.idle = Some g
    /\ Controller.isDragging g = true
    /\ Controller.currentRing g = Some wind
    /\ selectedRing (Controller.store g) = Some wind
    /\ isDragging (Controller.store g) = true
    /\ windRing (Controller.store g) = set_radius 190 (windRing initialState)
    /\ canvas (Controller.store g) = canvas initialState.
Proof.
  pose proof PI_RGT_0 as Hpi.
  set (s1 := startRingDrag wind {| x := 590; y := 300 |} initialState).
  assert (Hstep : RootStore.updateRingDrag {| x := 600; y := 300 |} s1
                  = Store.calculateApparentWind
                      (set_dragStart (Some {| x := 600; y := 300 |})
                         (set_ringOf wind (set_radius 190 (windRing initialState)) s1))).
  { rewrite (RootStore_updateRingDrag_dragging _ {| x := 590; y := 300 |} _ wind)
      by reflexivity.
    cbn [Spec.center s1 startRingDrag canvas initialState centerX centerY x y
         ringOf windRing radius minRadius maxRadius].
    change (Spec.center s1) with {| x := 400; y := 300 |}.
    rewrite !distance_on_axis by lra.
    rewrite Rminus_diag, !atan2_positive_x_axis by lra.
    rewrite Rminus_diag, normalizeAngle_id by lra.
    destruct (Rgt_dec _ _) as [_ | H]; [| exfalso; apply H; real_cases].
    do 3 f_equal. unfold set_radius. f_equal. real_cases. }
  destruct (calculateApparentWind_total
              (set_dragStart (Some {| x := 600; y := 300 |})
                 (set_ringOf wind (set_radius 190 (windRing initialState)) s1)))
    as [s2 Hs2]; [cbn; lra | cbn; lra |].
  destruct (calculateApparentWind_fresh _ _ Hs2) as (_ & Ew & _ & Ec & Es & Ed & _).
  exists {| Controller.store := s2; Controller.isDragging := true;
            Controller.currentRing := Some wind |}.
  split.
  - cbn [Controller.run Controller.dispatch]. unfold Controller.handleMouseDown.
    cbn [Scenario.idle Controller.store]. rewrite getRingAt_near_wind.
    unfold Controller.handleMouseMove.
    cbn [Controller.isDragging Controller.currentRing Controller.store].
    fold s1. rewrite Hstep, Hs2. reflexivity.
  - cbn [Controller.isDragging Controller.currentRing Controller.store].
    repeat split; assumption.
Qed.

Lemma drag_recompute (p : Vector2D) (s : SailingState) (sel : RingType) (r : Ring) :
  selectedRing s = Some sel -> isDragging s = true ->
  minRadius r = minRadius (ringOf sel s) -> maxRadius r = maxRadius (ringOf sel s) ->
  Spec.boundsDistinct s ->
  exists s',
    Store.calculateApparentWind (set_dragStart (Some p) (set_ringOf sel r s)) = Some s'
    /\ ringOf sel s' = r
    /\ Spec.dragFrame p s sel s'.
Proof.
  intros Hsel Hdrag Hlo Hhi Hb.
  pose proof (boundsDistinct_set_ringOf sel r s Hlo Hhi Hb) as [Hw' Hb'].
  destruct (calculateApparentWind_total
              (set_dragStart (Some p) (set_ringOf sel r s)) Hw' Hb') as [s' Hs'].
  exists s'. split; [exact Hs' |].
  pose proof (ringOf_after_recompute sel _ _ Hs') as Esel.
  pose proof (ringOf_after_recompute (Spec.otherRing sel) _ _ Hs') as Eoth.
  destruct (calculateApparentWind_fresh _ _ Hs') as (Hf & _ & _ & Ec & Es & Ed & Est).
  destruct (set_ringOf_frame sel r s) as (Fsel & Fo & Fs & Fd & _ & Fc & _).
  assert (Esel' : ringOf sel s' = r).
  { rewrite Esel. destruct sel; reflexivity. }
  split; [exact Esel' |].
  unfold Spec.dragFrame. rewrite Esel'.
  split. { rewrite Eoth. destruct sel; reflexivity. }
  split; [exact Hlo |]. split; [exact Hhi |].
  split. { rewrite Ec. destruct sel; reflexivity. }
  split. { rewrite Es, <- Hsel. destruct sel; reflexivity. }
  split. { rewrite Ed, <- Hdrag. destruct sel; reflexivity. }
  split; [exact Est | exact Hf].
Qed.

(** C5 (as stated) fails in stores/sailing.ts, the store whose
    [updateRingDrag] the pointer-move handler calls: after pressing at distance
    190 and moving to distance 200 the wind radius is 190, the old radius 180
    plus the radial delta 10, and not the pointer's distance 200, which lies
    inside the bounds 80 and 250. *)
Lemma root_store_drag_is_relative :
  exists g : Controller.Gestures,
    Controller.run [Controller.MouseDown {| x := 590; y := 300 |};
                    Controller.MouseMove {| x := 600; y := 300 |}]
                   Scenario.idle = Some g
    /\ selectedRing (Controller.store g) = Some wind
    /\ isDragging (Controller.store g) = true
    /\ radius (windRing (Controller.store g)) = 190
    /\ Spec.absoluteRadius {| x := 600; y := 300 |} (Controller.store g)
                           (windRing initialState) = 200.
Proof.
  destruct drag_wind_outward as (g & Hrun & _ & _ & Hsel & Hdrag & Hw & Hc).
  exists g. repeat split; try assumption.
  - rewrite Hw. reflexivity.
  - unfold Spec.absoluteRadius, Spec.center. rewrite Hc.
    cbn [initialState canvas centerX centerY windRing minRadius maxRadius].
    rewrite distance_on_axis by lra. real_cases.
Qed.

Lemma drag_recompute_result (p : Vector2D) (s s' : SailingState) (sel : RingType)
  (r : Ring) :
  selectedRing s = Some sel -> isDragging s = true ->
  minRadius r = minRadius (ringOf sel s) -> maxRadius r = maxRadius (ringOf sel s) ->
  Store.calculateApparentWind (set_dragStart (Some p) (set_ringOf sel r s)) = Some s' ->
  ringOf sel s' = r /\ Spec.dragFrame p s sel s'.
Proof.
  intros Hsel Hdrag Hlo Hhi Hs'.
  pose proof (ringOf_after_recompute sel _ _ Hs') as Esel.
  pose proof (ringOf_after_recompute (Spec.otherRing sel) _ _ Hs') as Eoth.
  destruct (calculateApparentWind_fresh _ _ Hs') as (Hf & _ & _ & Ec & Es & Ed & Est).
  assert (Esel' : ringOf sel s' = r).
  { rewrite Esel. destruct sel; reflexivity. }
  split; [exact Esel' |].
  unfold Spec.dragFrame. rewrite Esel'.
  split. { rewrite Eoth. destruct sel; reflexivity. }
  split; [exact Hlo |]. split; [exact Hhi |].
  split. { rewrite Ec. destruct sel; reflexivity. }
  split. { rewrite Es, <- Hsel. destruct sel; reflexivity. }
  split. { rewrite Ed, <- Hdrag. destruct sel; reflexivity. }
  split; [exact Est | exact Hf].
Qed.

Lemma signedTurn_range (a b : R) : - PI < Spec.signedTurn a b <= PI.
Proof.
  unfold Spec.signedTurn. cbv zeta.
  pose proof (normalizeAngle_range (b - a)) as Hr.
  destruct (Rle_dec _ PI); lra.
Qed.

Lemma signedTurn_congruent (a b : R) :
  exists k : Z, Spec.signedTurn a b = b - a + 2 * PI * IZR k.
Proof.
  unfold Spec.signedTurn. cbv zeta.
  destruct (normalizeAngle_congruent (b - a)) as [k Hk].
  destruct (Rle_dec _ PI).
  - exists k. exact Hk.
  - exists (k - 1)%Z. rewrite minus_IZR, Hk. ring.
Qed.

Lemma signedTurn_nonneg (a b : R) :
  0 <= Spec.signedTurn a b -> normalizeAngle (b - a) = Spec.signedTurn a b.
Proof.
  unfold Spec.signedTurn. cbv zeta.
  pose proof (normalizeAngle_range (b - a)) as Hr.
  destruct (Rle_dec _ PI); [reflexivity | lra].
Qed.

Lemma normalizeAngle_add_signedTurn (c a b : R) :
  normalizeAngle (c + normalizeAngle (b - a))
  = normalizeAngle (c + Spec.signedTurn a b).
Proof.
  unfold Spec.signedTurn. cbv zeta.
  destruct (Rle_dec _ PI); [reflexivity |].
  replace (c + (normalizeAngle (b - a) - 2 * PI))
    with (c + normalizeAngle (b - a) + 2 * PI * IZR (-1)) by (simpl; ring).
  now rewrite normalizeAngle_period.
Qed.

Lemma distance_nonneg (a b : Vector2D) : 0 <= distance a b.
Proof. apply sqrt_pos. Qed.

(** C5 (amended). During a drag, [updateRingDrag] of app/stores/sailing.ts
    positions the selected ring absolutely (radius = clamped distance of the
    pointer from the center, angle = normalized [atan2] of the offset);
    [updateRingDrag] of stores/sailing.ts moves it relative to the drag
    anchor: either the radius changes by the radial delta, clamped, or the
    angle by the signed turn, normalized, and for a turn that is not negative
    the radius changes exactly when the radial movement exceeds the tangential
    one.  Both leave the other ring and the bounds alone, move the anchor to
    the pointer and recompute the apparent wind; both return a store when the
    bounds of each ring are distinct. *)
Theorem updateRingDrag_positioning (p : Vector2D) (s : SailingState) (sel : RingType) :
  selectedRing s = Some sel -> isDragging s = true ->
  (forall s', AppStore.updateRingDrag p s = Some s' -> Spec.absoluteDrag p s sel s')
  /\ (forall start s', dragStart s = Some start ->
        RootStore.updateRingDrag p s = Some s' -> Spec.relativeDrag p start s sel s')
  /\ (Spec.boundsDistinct s ->
      (exists s', AppStore.updateRingDrag p s = Some s')
      /\ (exists s', RootStore.updateRingDrag p s = Some s')).
Proof.
  intros Hsel Hdrag. split; [| split].
  - intros s' Hs'.
    rewrite (AppStore_updateRingDrag_dragging p s sel Hsel Hdrag) in Hs'.
    cbv zeta in Hs'.
    match type of Hs' with
    | Store.calculateApparentWind (set_dragStart _ (set_ringOf _ ?r _)) = _ =>
        destruct (drag_recompute_result p s s' sel r Hsel Hdrag eq_refl eq_refl Hs')
          as [Er Hframe]
    end.
    unfold Spec.absoluteDrag. rewrite Er.
    split; [reflexivity |]. split; [reflexivity | exact Hframe].
  - intros start s' Hstart Hs'.
    rewrite (RootStore_updateRingDrag_dragging p start s sel Hsel Hstart Hdrag) in Hs'.
    cbv zeta in Hs'.
    pose proof (distance_nonneg start (Spec.center s)) as Hd.
    fold (Spec.direction start s) (Spec.direction p s) in Hs'.
    destruct (Rgt_dec _ _) as [Hgt | Hle] in Hs'.
    + match type of Hs' with
      | Store.calculateApparentWind (set_dragStart _ (set_ringOf _ ?r _)) = _ =>
          destruct (drag_recompute_result p s s' sel r Hsel Hdrag eq_refl eq_refl Hs')
            as [Er Hframe]
      end.
      assert (Hrad : Spec.radialUpdate p start s sel s').
      { unfold Spec.radialUpdate. cbv zeta. rewrite Er. split; reflexivity. }
      unfold Spec.relativeDrag. cbv zeta.
      split; [left; exact Hrad |]. split; [| exact Hframe].
      intros Hturn. rewrite (signedTurn_nonneg _ _ Hturn) in Hgt.
      rewrite (Rabs_right (distance start (Spec.center s) * _)) in Hgt
        by (apply Rle_ge, Rmult_le_pos; assumption).
      destruct (Rgt_dec _ _) as [_ | Hn]; [exact Hrad | contradiction].
    + match type of Hs' with
      | Store.calculateApparentWind (set_dragStart _ (set_ringOf _ ?r _)) = _ =>
          destruct (drag_recompute_result p s s' sel r Hsel Hdrag eq_refl eq_refl Hs')
            as [Er Hframe]
      end.
      assert (Hang : Spec.angularUpdate p start s sel s').
      { unfold Spec.angularUpdate. cbv zeta. rewrite Er.
        split; [reflexivity |]. cbn [set_angle angle].
        apply normalizeAngle_add_signedTurn. }
      unfold Spec.relativeDrag. cbv zeta.
      split; [right; exact Hang |]. split; [| exact Hframe].
      intros Hturn. rewrite (signedTurn_nonneg _ _ Hturn) in Hle.
      rewrite (Rabs_right (distance start (Spec.center s) * _)) in Hle
        by (apply Rle_ge, Rmult_le_pos; assumption).
      destruct (Rgt_dec _ _) as [Hy | _]; [contradiction | exact Hang].
  - intros Hb. split.
    + rewrite (AppStore_updateRingDrag_dragging p s sel Hsel Hdrag). cbv zeta.
      match goal with
      | |- exists _, Store.calculateApparentWind (set_dragStart _ (set_ringOf _ ?r _)) = _ =>
          destruct (drag_recompute p s sel r Hsel Hdrag eq_refl eq_refl Hb)
            as (s' & Hs' & _)
      end.
      exists s'. exact Hs'.
    + destruct (dragStart s) as [start |] eqn:Hstart.
      * rewrite (RootStore_updateRingDrag_dragging p start s sel Hsel Hstart Hdrag).
        cbv zeta.
        destruct (Rgt_dec _ _);
          match goal with
          | |- exists _, Store.calculateApparentWind (set_dragStart _ (set_ringOf _ ?r _)) = _ =>
              destruct (drag_recompute p s sel r Hsel Hdrag eq_refl eq_refl Hb)
                as (s' & Hs' & _)
          end;
          exists s'; exact Hs'.
      * exists s. unfold RootStore.updateRingDrag. now rewrite Hsel, Hstart.
Qed.

Lemma updateRingDrag_positioning_witness :
  (exists s',
     AppStore.updateRingDrag {| x := 520; y := 300 |}
       (startRingDrag boat {| x := 520; y := 300 |} initialState) = Some s'
     /\ Spec.absoluteDrag {| x := 520; y := 300 |}
          (startRingDrag boat {| x := 520; y := 300 |} initialState) boat s')
  /\ (exists s',
        RootStore.updateRingDrag {| x := 520; y := 300 |}
          (startRingDrag boat {| x := 520; y := 300 |} initialState) = Some s'
        /\ Spec.relativeDrag {| x := 520; y := 300 |} {| x := 520; y := 300 |}
             (startRingDrag boat {| x := 520; y := 300 |} initialState) boat s').
Proof.
  destruct (updateRingDrag_positioning {| x := 520; y := 300 |}
              (startRingDrag boat {| x := 520; y := 300 |} initialState) boat
              eq_refl eq_refl) as (Habs & Hrel & Htotal).
  destruct Htotal as [[sa Hsa] [sr Hsr]].
  - unfold Spec.boundsDistinct. cbn. lra.
  - split.
    + exists sa. split; [exact Hsa | exact (Habs sa Hsa)].
    + exists sr. split; [exact Hsr | exact (Hrel _ sr eq_refl Hsr)].
Defined.

(** ** Gesture controller *)

Lemma handleKeyDown_arrow (k : Controller.Key) (d : Direction) (g : Controller.Gestures)
  (ring : RingType) :
  Spec.arrowDirection k = Some d ->
  selectedRing (Controller.store g) = Some ring ->
  Controller.handleKeyDown k g =
    option_map (fun s' => {| Controller.store := s';
                             Controller.isDragging := Controller.isDragging g;
                             Controller.currentRing := Controller.currentRing g |})
               (moveSelectedRing d 0.05 (Controller.store g)).
Proof.
  intros Hk Hsel. unfold Controller.handleKeyDown. rewrite Hsel.
  destruct k; cbn in Hk; try discriminate; injection Hk as <-;
    destruct (moveSelectedRing _ _ _); reflexivity.
Qed.

Lemma handleKeyDown_effect (k : Controller.Key) (g g' : Controller.Gestures) :
  Controller.handleKeyDown k g = Some g' ->
  Controller.isDragging g' = Controller.isDragging g
  /\ Controller.currentRing g' = Controller.currentRing g
  /\ (k <> Controller.Escape ->
      selectedRing (Controller.store g') = selectedRing (Controller.store g))
  /\ (forall sel, selectedRing (Controller.store g) = Some sel ->
        ringOf (Spec.otherRing sel) (Controller.store g')
        = ringOf (Spec.otherRing sel) (Controller.store g)).
Proof.
  unfold Controller.handleKeyDown.
  destruct (selectedRing (Controller.store g)) as [sel |] eqn:Hsel.
  - destruct k;
      try (destruct (moveSelectedRing _ _ _) as [s' |] eqn:Hm; [| discriminate];
           intros H; injection H as <-; cbn [Controller.store Controller.isDragging
                                               Controller.currentRing];
           destruct (moveSelectedRing_effect _ _ _ _ Hm) as (Es & _ & _ & _ & Ho);
           split; [reflexivity |]; split; [reflexivity |];
           split; [intros _; congruence |];
           intros sel' E; injection E as <-; exact (proj1 (Ho sel Hsel))).
    + intros H. injection H as <-. cbn.
      split; [reflexivity |]. split; [reflexivity |].
      split; [intros H; now contradiction H |].
      intros sel' E. destruct sel'; reflexivity.
    + intros H. injection H as <-.
      split; [reflexivity |]. split; [reflexivity |].
      split; [intros _; congruence |]. intros sel' E. reflexivity.
  - intros H. injection H as <-.
    split; [reflexivity |]. split; [reflexivity |].
    split; [intros _; congruence |]. intros sel E. discriminate.
Qed.

Lemma dispatch_keeps_gesture (e : Controller.Event) (g g' : Controller.Gestures) :
  Spec.buttonEvent e = false -> Controller.dispatch e g = Some g' ->
  Controller.isDragging g' = Controller.isDragging g
  /\ Controller.currentRing g' = Controller.currentRing g.
Proof.
  destruct e as [q | q | | k | w h]; cbn [Spec.buttonEvent Controller.dispatch];
    try discriminate; intros _.
  - unfold Controller.handleMouseMove.
    destruct (Controller.isDragging g) eqn:E1, (Controller.currentRing g) eqn:E2;
      try (intros H; injection H as <-; split; congruence).
    destruct (RootStore.updateRingDrag _ _); [| discriminate].
    intros H; injection H as <-; split; reflexivity.
  - intros H. apply handleKeyDown_effect in H. split; apply H.
  - intros H; injection H as <-; split; reflexivity.
Qed.

Lemma run_keeps_gesture (events : list Controller.Event) (g g' : Controller.Gestures) :
  forallb (fun e => negb (Spec.buttonEvent e)) events = true ->
  Controller.run events g = Some g' ->
  Controller.isDragging g' = Controller.isDragging g
  /\ Controller.currentRing g' = Controller.currentRing g.
Proof.
  revert g. induction events as [| e rest IH]; intros g Hall Hrun.
  - injection Hrun as <-. split; reflexivity.
  - cbn [forallb] in Hall. apply andb_true_iff in Hall as [He Hrest].
    apply negb_true_iff in He.
    cbn [Controller.run] in Hrun.
    destruct (Controller.dispatch e g) as [g1 |] eqn:Hd; [| discriminate].
    destruct (dispatch_keeps_gesture e g g1 He Hd) as [E1 E2].
    destruct (IH g1 Hrest Hrun) as [E3 E4]. split; congruence.
Qed.

Lemma dispatch_keeps_selection (e : Controller.Event) (g g' : Controller.Gestures)
  (ring : RingType) :
  Spec.selectionEvent e = false ->
  Controller.isDragging g = false ->
  selectedRing (Controller.store g) = Some ring ->
  Controller.dispatch e g = Some g' ->
  Controller.isDragging g' = false
  /\ selectedRing (Controller.store g') = Some ring.
Proof.
  intros He Hidle Hsel.
  destruct e as [q | q | | k | w h]; cbn [Spec.selectionEvent Controller.dispatch] in *;
    try discriminate.
  - unfold Controller.handleMouseMove. rewrite Hidle.
    intros H; injection H as <-. split; assumption.
  - unfold Controller.handleMouseUp. rewrite Hidle.
    intros H; injection H as <-. split; [reflexivity | exact Hsel].
  - intros H. destruct (handleKeyDown_effect k g g' H) as (E1 & _ & E3 & _).
    split; [congruence |]. rewrite E3; [exact Hsel |].
    intros ->. discriminate.
  - intros H; injection H as <-. split; assumption.
Qed.

Lemma run_keeps_selection (events : list Controller.Event) (g g' : Controller.Gestures)
  (ring : RingType) :
  forallb (fun e => negb (Spec.selectionEvent e)) events = true ->
  Controller.isDragging g = false ->
  selectedRing (Controller.store g) = Some ring ->
  Controller.run events g = Some g' ->
  selectedRing (Controller.store g') = Some ring.
Proof.
  revert g. induction events as [| e rest IH]; intros g Hall Hidle Hsel Hrun.
  - injection Hrun as <-. exact Hsel.
  - cbn [forallb] in Hall. apply andb_true_iff in Hall as [He Hrest].
    apply negb_true_iff in He.
    cbn [Controller.run] in Hrun.
    destruct (Controller.dispatch e g) as [g1 |] eqn:Hd; [| discriminate].
    destruct (dispatch_keeps_selection e g g1 ring He Hidle Hsel Hd) as [E1 E2].
    exact (IH g1 Hrest E1 E2 Hrun).
Qed.

Lemma handleMouseDown_on_ring (p : Vector2D) (g : Controller.Gestures) (ring : RingType) :
  Controller.getRingAt p (Controller.store g) = Some ring ->
  Controller.handleMouseDown p g =
    {| Controller.store := startRingDrag ring p (Controller.store g);
       Controller.isDragging := true;
       Controller.currentRing := Some ring |}.
Proof. intros H. unfold Controller.handleMouseDown. now rewrite H. Qed.

Lemma handleMouseDown_on_empty (p : Vector2D) (g : Controller.Gestures) :
  Controller.getRingAt p (Controller.store g) = None ->
  Controller.handleMouseDown p g =
    {| Controller.store := selectRing None (Controller.store g);
       Controller.isDragging := Controller.isDragging g;
       Controller.currentRing := Controller.currentRing g |}.
Proof. intros H. unfold Controller.handleMouseDown. now rewrite H. Qed.

Lemma handleMouseUp_dragging (g : Controller.Gestures) (ring : RingType) :
  Controller.isDragging g = true -> Controller.currentRing g = Some ring ->
  Controller.handleMouseUp g =
    {| Controller.store := selectRing (Some ring) (endRingDrag (Controller.store g));
       Controller.isDragging := false;
       Controller.currentRing := None |}.
Proof. intros H1 H2. unfold Controller.handleMouseUp. now rewrite H1, H2. Qed.

(** C10. A drag that began with a pointer-down on [ring] and is ended by
    pointer-up: the store is no longer dragging, the drag anchor is cleared
    and [ring] is the selected ring; the rings are as the drag left them;
    the selection survives every later event that is neither a pointer-down
    nor Escape; arrow keys nudge the store through [moveSelectedRing] and
    leave the other ring alone; Escape and a pointer-down on empty space
    clear the selection, and a pointer-down on a ring selects the ring it
    hits. *)
Theorem pointer_up_keeps_selection (g0 g1 : Controller.Gestures) (p : Vector2D)
  (during : list Controller.Event) (ring : RingType) :
  Controller.getRingAt p (Controller.store g0) = Some ring ->
  forallb (fun e => negb (Spec.buttonEvent e)) during = true ->
  Controller.run (Controller.MouseDown p :: during) g0 = Some g1 ->
  let g2 := Controller.handleMouseUp g1 in
  (isDragging (Controller.store g2) = false
   /\ dragStart (Controller.store g2) = None
   /\ selectedRing (Controller.store g2) = Some ring
   /\ Controller.isDragging g2 = false
   /\ Controller.currentRing g2 = None
   /\ windRing (Controller.store g2) = windRing (Controller.store g1)
   /\ boatRing (Controller.store g2) = boatRing (Controller.store g1))
  /\ (forall later g3,
        forallb (fun e => negb (Spec.selectionEvent e)) later = true ->
        Controller.run later g2 = Some g3 ->
        selectedRing (Controller.store g3) = Some ring)
  /\ (forall k d,
        Spec.arrowDirection k = Some d ->
        Controller.handleKeyDown k g2 =
          option_map (fun s' => {| Controller.store := s';
                                   Controller.isDragging := false;
                                   Controller.currentRing := None |})
                     (moveSelectedRing d 0.05 (Controller.store g2)))
  /\ (forall k g3,
        Controller.handleKeyDown k g2 = Some g3 ->
        ringOf (Spec.otherRing ring) (Controller.store g3)
        = ringOf (Spec.otherRing ring) (Controller.store g2))
  /\ (exists g3,
        Controller.handleKeyDown Controller.Escape g2 = Some g3
        /\ selectedRing (Controller.store g3) = None)
  /\ (forall q,
        Controller.getRingAt q (Controller.store g2) = None ->
        selectedRing (Controller.store (Controller.handleMouseDown q g2)) = None)
  /\ (forall q hit,
        Controller.getRingAt q (Controller.store g2) = Some hit ->
        selectedRing (Controller.store (Controller.handleMouseDown q g2)) = Some hit).
Proof.
  intros Hhit Hduring Hrun. cbv zeta.
  cbn [Controller.run Controller.dispatch] in Hrun.
  rewrite (handleMouseDown_on_ring p g0 ring Hhit) in Hrun.
  destruct (run_keeps_gesture _ _ _ Hduring Hrun) as [Hd Hc].
  cbn [Controller.isDragging Controller.currentRing] in Hd, Hc.
  rewrite (handleMouseUp_dragging g1 ring Hd Hc).
  set (g2 := {| Controller.store := selectRing (Some ring) (endRingDrag (Controller.store g1));
                Controller.isDragging := false;
                Controller.currentRing := None |}).
  assert (Hsel : selectedRing (Controller.store g2) = Some ring) by reflexivity.
  split; [repeat split |].
  split.
  { intros later g3 Hlater Hrun3.
    exact (run_keeps_selection later g2 g3 ring Hlater eq_refl Hsel Hrun3). }
  split.
  { intros k d Hk. exact (handleKeyDown_arrow k d g2 ring Hk Hsel). }
  split.
  { intros k g3 Hk.
    destruct (handleKeyDown_effect k g2 g3 Hk) as (_ & _ & _ & Ho).
    exact (Ho ring Hsel). }
  split.
  { eexists. split; [reflexivity | reflexivity]. }
  split.
  { intros q Hq. rewrite (handleMouseDown_on_empty q g2 Hq). reflexivity. }
  intros q hit Hq. rewrite (handleMouseDown_on_ring q g2 hit Hq). reflexivity.
Qed.

Lemma pointer_up_keeps_selection_witness :
  exists g1 : Controller.Gestures,
    Controller.run [Controller.MouseDown {| x := 590; y := 300 |};
                    Controller.MouseMove {| x := 600; y := 300 |}]
                   Scenario.idle = Some g1
    /\ isDragging (Controller.store (Controller.handleMouseUp g1)) = false
    /\ dragStart (Controller.store (Controller.handleMouseUp g1)) = None
    /\ selectedRing (Controller.store (Controller.handleMouseUp g1)) = Some wind.
Proof.
  destruct drag_wind_outward as (g1 & Hrun & _).
  exists g1. split; [exact Hrun |].
  destruct (pointer_up_keeps_selection
              Scenario.idle g1 {| x := 590; y := 300 |}
              [Controller.MouseMove {| x := 600; y := 300 |}] wind
              getRingAt_near_wind eq_refl Hrun)
    as ((H1 & H2 & H3 & _) & _).
  repeat split; assumption.
Defined.

(** ** The handlers return a store as long as the bounds stay distinct *)

Lemma recompute_after_ring_update (d : option Vector2D) (sel : RingType) (r : Ring)
  (s : SailingState) :
  minRadius r = minRadius (ringOf sel s) -> maxRadius r = maxRadius (ringOf sel s) ->
  Spec.boundsDistinct s ->
  exists s',
    Store.calculateApparentWind (set_dragStart d (set_ringOf sel r s)) = Some s'
    /\ Spec.boundsDistinct s'.
Proof.
  intros Hlo Hhi Hb.
  pose proof (boundsDistinct_set_ringOf sel r s Hlo Hhi Hb) as Hb'.
  destruct (calculateApparentWind_total
              (set_dragStart d (set_ringOf sel r s)) (proj1 Hb') (proj2 Hb'))
    as [s' Hs'].
  exists s'. split; [exact Hs' |].
  exact (calculateApparentWind_keeps_bounds _ _ Hs' Hb').
Qed.

Lemma RootStore_updateRingDrag_total (p : Vector2D) (s : SailingState) :
  Spec.boundsDistinct s ->
  exists s', RootStore.updateRingDrag p s = Some s' /\ Spec.boundsDistinct s'.
Proof.
  intros Hb.
  destruct (selectedRing s) as [sel |] eqn:Hsel;
    [| exists s; split; [apply RootStore_updateRingDrag_idle; now left | exact Hb]].
  destruct (dragStart s) as [start |] eqn:Hstart;
    [| exists s; split;
       [apply RootStore_updateRingDrag_idle; right; now left | exact Hb]].
  destruct (isDragging s) eqn:Hdrag;
    [| exists s; split;
       [apply RootStore_updateRingDrag_idle; right; now right | exact Hb]].
  rewrite (RootStore_updateRingDrag_dragging p start s sel Hsel Hstart Hdrag).
  cbv zeta.
  destruct (Rgt_dec _ _); apply recompute_after_ring_update; auto.
Qed.

Lemma AppStore_updateRingDrag_total (p : Vector2D) (s : SailingState) :
  Spec.boundsDistinct s ->
  exists s', AppStore.updateRingDrag p s = Some s' /\ Spec.boundsDistinct s'.
Proof.
  intros Hb.
  destruct (selectedRing s) as [sel |] eqn:Hsel;
    [| exists s; split; [apply AppStore_updateRingDrag_idle; now left | exact Hb]].
  destruct (isDragging s) eqn:Hdrag;
    [| exists s; split; [apply AppStore_updateRingDrag_idle; now right | exact Hb]].
  rewrite (AppStore_updateRingDrag_dragging p s sel Hsel Hdrag). cbv zeta.
  apply recompute_after_ring_update; auto.
Qed.

Lemma dispatch_total (e : Controller.Event) (g : Controller.Gestures) :
  Spec.emptyResize e = false ->
  Spec.boundsDistinct (Controller.store g) ->
  exists g', Controller.dispatch e g = Some g'
             /\ Spec.boundsDistinct (Controller.store g').
Proof.
  intros He Hb.
  destruct e as [q | q | | k | w h]; cbn [Controller.dispatch].
  - eexists. split; [reflexivity |].
    unfold Controller.handleMouseDown.
    destruct (Controller.getRingAt q (Controller.store g)); exact Hb.
  - unfold Controller.handleMouseMove.
    destruct (Controller.isDragging g), (Controller.currentRing g); eauto.
    destruct (RootStore_updateRingDrag_total q _ Hb) as (s' & -> & Hb').
    eexists. split; [reflexivity | exact Hb'].
  - eexists. split; [reflexivity |].
    unfold Controller.handleMouseUp.
    destruct (Controller.isDragging g), (Controller.currentRing g); exact Hb.
  - unfold Controller.handleKeyDown.
    destruct (selectedRing (Controller.store g)); eauto.
    destruct k;
      try (match goal with
           | |- context [moveSelectedRing ?d ?st ?s] =>
               destruct (moveSelectedRing_total d st s Hb) as (s' & -> & Hb')
           end; eexists; split; [reflexivity | exact Hb']);
      eauto.
  - cbn [Spec.emptyResize] in He.
    destruct (Rlt_dec 0 w) as [Hw |]; [| discriminate].
    destruct (Rlt_dec 0 h) as [Hh |]; [| discriminate].
    eexists. split; [reflexivity |].
    destruct (updateCanvasDimensions_bounds_ordered w h (Controller.store g) Hw Hh)
      as [H1 H2].
    split; cbn [Controller.handleResize Controller.store]; lra.
Qed.

Lemma run_total (events : list Controller.Event) (g : Controller.Gestures) :
  forallb (fun e => negb (Spec.emptyResize e)) events = true ->
  Spec.boundsDistinct (Controller.store g) ->
  exists g', Controller.run events g = Some g'.
Proof.
  revert g. induction events as [| e rest IH]; intros g Hall Hb.
  - eexists. reflexivity.
  - cbn [forallb] in Hall. apply andb_true_iff in Hall as [He Hrest].
    apply negb_true_iff in He.
    destruct (dispatch_total e g He Hb) as (g1 & Hd & Hb1).
    destruct (IH g1 Hrest Hb1) as [g' Hg'].
    exists g'. cbn [Controller.run]. now rewrite Hd.
Qed.

(** * Further properties of the kernel, the stores and the handlers *)

(** ** Unit conversions and vector algebra *)

(** X1. [degToRad] and [radToDeg] are inverse to each other, and a full
    turn is 360 degrees. *)
Theorem degrees_radians_round_trip (v : R) :
  radToDeg (degToRad v) = v
  /\ degToRad (radToDeg v) = v
  /\ degToRad 360 = 2 * PI
  /\ radToDeg PI = 180.
Proof.
  pose proof PI_RGT_0 as Hpi. unfold radToDeg, degToRad.
  repeat split; field; lra.
Qed.

(** X2. Converting any vector to polar form and back gives the vector
    itself, the origin included; the polar form has a magnitude that is not
    negative and an angle in $(-\pi, \pi]$ that is not normalized. *)
Theorem cartesian_polar_round_trip (v : Vector2D) :
  polarToCartesian (cartesianToPolar v) = v
  /\ 0 <= magnitude (cartesianToPolar v)
  /\ - PI < polar_angle (cartesianToPolar v) <= PI.
Proof.
  destruct v as [vx vy]. unfold polarToCartesian, cartesianToPolar.
  cbn [x y polar_angle magnitude].
  destruct (atan2_polar vx vy) as [Hx Hy].
  split; [now rewrite Hx, Hy |].
  split; [apply sqrt_pos | apply atan2_range].
Qed.

Lemma atan2_of_polar (m a : R) :
  0 < m -> - PI < a <= PI -> JS.atan2 (m * sin a) (m * cos a) = a.
Proof.
  intros Hm Ha.
  assert (Hmag : sqrt (m * cos a * (m * cos a) + m * sin a * (m * sin a)) = m).
  { apply sqrt_lem_1; [apply sum_squares_nonneg | lra |].
    pose proof (sin2_cos2 a) as H. unfold Rsqr in H. nra. }
  destruct (atan2_polar (m * cos a) (m * sin a)) as [Hc Hs].
  rewrite Hmag in Hc, Hs.
  destruct (same_direction_whole_turns (JS.atan2 (m * sin a) (m * cos a)) a)
    as [k Hk]; [nra | nra |].
  pose proof (atan2_range (m * cos a) (m * sin a)) as Hr.
  assert (k = 0%Z).
  { apply (small_multiple_is_zero k (JS.atan2 (m * sin a) (m * cos a) - a)); lra. }
  subst k. rewrite Hk. simpl. ring.
Qed.

(** X3. A polar pair with positive magnitude and an angle in
    $(-\pi, \pi]$ survives the conversion to cartesian form and back. *)
Theorem polar_cartesian_round_trip (p : PolarCoords) :
  0 < magnitude p -> - PI < polar_angle p <= PI ->
  cartesianToPolar (polarToCartesian p) = p.
Proof.
  destruct p as [a m]. cbn [polar_angle magnitude]. intros Hm Ha.
  unfold cartesianToPolar, polarToCartesian. cbn [x y polar_angle magnitude].
  rewrite atan2_of_polar by assumption. f_equal.
  apply sqrt_lem_1; [apply sum_squares_nonneg | lra |].
  pose proof (sin2_cos2 a) as H. unfold Rsqr in H. nra.
Qed.

Lemma polar_cartesian_round_trip_witness :
  cartesianToPolar (polarToCartesian {| polar_angle := 0; magnitude := 5 |})
  = {| polar_angle := 0; magnitude := 5 |}.
Proof.
  apply (polar_cartesian_round_trip {| polar_angle := 0; magnitude := 5 |}).
  - cbn. lra.
  - cbn. pose proof PI_RGT_0. lra.
Defined.

(** X4. [subtractVectors] undoes [addVectors] and the other way round;
    scaling by two factors in a row is scaling by their product, and scaling
    distributes over [addVectors]. *)
Theorem vector_algebra (a b : Vector2D) (k l : R) :
  subtractVectors (addVectors a b) b = a
  /\ addVectors (subtractVectors a b) b = a
  /\ addVectors a b = addVectors b a
  /\ scaleVector (scaleVector a k) l = scaleVector a (k * l)
  /\ scaleVector (addVectors a b) k = addVectors (scaleVector a k) (scaleVector b k)
  /\ scaleVector a 1 = a.
Proof.
  destruct a as [ax ay], b as [bx by'].
  unfold subtractVectors, addVectors, scaleVector. cbn [x y].
  repeat split; f_equal; ring.
Qed.

(** X5. [msToKnots] and [knotsToMs] are inverse to each other, and
    [knotsToMs] keeps the order of speeds. *)
Theorem knots_ms_round_trip (v w : R) :
  msToKnots (knotsToMs v) = v
  /\ knotsToMs (msToKnots v) = v
  /\ (v < w <-> knotsToMs v < knotsToMs w).
Proof.
  unfold msToKnots, knotsToMs.
  split; [field; lra |]. split; [field; lra |]. split; intros H; lra.
Qed.

(** X6. [clamp] with ordered bounds returns a value inside the bounds, leaves
    a value inside the bounds alone and is idempotent; with crossed bounds
    ([max < min]) it returns [max] whatever the value. *)
Theorem clamp_behaviour (value lo hi : R) :
  (lo <= hi -> lo <= clamp value lo hi <= hi)
  /\ (lo <= value <= hi -> clamp value lo hi = value)
  /\ (value < lo -> lo <= hi -> clamp value lo hi = lo)
  /\ (hi < value -> clamp value lo hi = hi)
  /\ (hi < lo -> clamp value lo hi = hi)
  /\ clamp (clamp value lo hi) lo hi = clamp value lo hi.
Proof.
  unfold clamp. repeat split; intros; real_cases.
Qed.

Lemma hypot_triangle (u1 u2 v1 v2 : R) :
  sqrt ((u1 + v1) * (u1 + v1) + (u2 + v2) * (u2 + v2))
  <= sqrt (u1 * u1 + u2 * u2) + sqrt (v1 * v1 + v2 * v2).
Proof.
  pose proof (sqrt_pos (u1 * u1 + u2 * u2)) as Hu.
  pose proof (sqrt_pos (v1 * v1 + v2 * v2)) as Hv.
  pose proof (sqrt_sqrt _ (sum_squares_nonneg u1 u2)) as Hu2.
  pose proof (sqrt_sqrt _ (sum_squares_nonneg v1 v2)) as Hv2.
  remember (sqrt (u1 * u1 + u2 * u2)) as su.
  remember (sqrt (v1 * v1 + v2 * v2)) as sv.
  assert (Hcs : u1 * v1 + u2 * v2 <= su * sv).
  { destruct (Rle_dec (u1 * v1 + u2 * v2) 0) as [Hn | Hp]; [nra |].
    apply Rsqr_incr_0_var; [| nra]. unfold Rsqr.
    replace (su * sv * (su * sv)) with ((su * su) * (sv * sv)) by ring.
    rewrite Hu2, Hv2.
    pose proof (Rle_0_sqr (u1 * v2 - u2 * v1)) as Hsq. unfold Rsqr in Hsq. nra. }
  apply Rsqr_incr_0_var; [| lra]. unfold Rsqr.
  rewrite sqrt_sqrt by apply sum_squares_nonneg. nra.
Qed.

(** X7. [distance] is symmetric, never negative, zero exactly between equal
    points, and satisfies the triangle inequality. *)
Theorem distance_metric (a b c : Vector2D) :
  distance a b = distance b a
  /\ 0 <= distance a b
  /\ (distance a b = 0 <-> a = b)
  /\ distance a c <= distance a b + distance b c.
Proof.
  destruct a as [ax ay], b as [bx by'], c as [cx cy].
  unfold distance. cbn [x y].
  split; [f_equal; ring |].
  split; [apply sqrt_pos |].
  split.
  - split.
    + intros H. apply sqrt_eq_0 in H; [| apply sum_squares_nonneg].
      destruct (Rplus_sqr_eq_0 (ax - bx) (ay - by') H) as [H1 H2].
      f_equal; lra.
    + intros H. injection H as -> ->.
      rewrite !Rminus_diag, Rmult_0_l, Rplus_0_l. apply sqrt_0.
  - replace (ax - cx) with ((ax - bx) + (bx - cx)) by ring.
    replace (ay - cy) with ((ay - by') + (by' - cy)) by ring.
    apply hypot_triangle.
Qed.

(** X8. The angle from a center to a point lies in $(-\pi, \pi]$, and
    walking [distance] along it from the center arrives at the point. *)
Theorem getAngleFromCenter_points_at (center point : Vector2D) :
  - PI < getAngleFromCenter center point <= PI
  /\ x center + distance point center * cos (getAngleFromCenter center point)
     = x point
  /\ y center + distance point center * sin (getAngleFromCenter center point)
     = y point.
Proof.
  unfold getAngleFromCenter, distance. cbv zeta.
  split; [apply atan2_range |].
  destruct (atan2_polar (x point - x center) (y point - y center)) as [Hx Hy].
  split; lra.
Qed.

(** ** Canvas resize *)

(** X9. Resizing twice to the same size is resizing once; a resize keeps
    both angles, the spoke counts, the selection, the drag state and the
    stored apparent wind, centers the canvas, never enlarges a radius and
    leaves every radius at or below its new [maxRadius]. *)
Theorem updateCanvasDimensions_idempotent (w h : R) (s : SailingState) :
  let s' := updateCanvasDimensions w h s in
  updateCanvasDimensions w h s' = s'
  /\ angle (windRing s') = angle (windRing s)
  /\ angle (boatRing s') = angle (boatRing s)
  /\ spokes (windRing s') = spokes (windRing s)
  /\ spokes (boatRing s') = spokes (boatRing s)
  /\ selectedRing s' = selectedRing s
  /\ isDragging s' = isDragging s
  /\ dragStart s' = dragStart s
  /\ apparentWind s' = apparentWind s
  /\ centerX (canvas s') = w / 2
  /\ centerY (canvas s') = h / 2
  /\ radius (windRing s') <= radius (windRing s)
  /\ radius (boatRing s') <= radius (boatRing s)
  /\ radius (windRing s') <= maxRadius (windRing s')
  /\ radius (boatRing s') <= maxRadius (boatRing s').
Proof.
  cbv zeta. split.
  - unfold updateCanvasDimensions.
    cbn [windRing boatRing apparentWind canvas selectedRing isDragging dragStart
         angle radius spokes minRadius maxRadius].
    f_equal; f_equal; apply Rmin_left, Rmin_r.
  - cbn. repeat split; try apply Rmin_l; apply Rmin_r.
Qed.

(** X10. After a resize to a positive size both rings have
    [minRadius < maxRadius], and a ring satisfies
    [minRadius <= radius <= maxRadius] exactly when its radius before the
    resize was at least the new [minRadius] (0.16 of the smaller canvas side
    for the wind ring, 0.12 for the boat ring). *)
Theorem updateCanvasDimensions_invariant_iff (w h : R) (s : SailingState) :
  0 < w -> 0 < h ->
  let s' := updateCanvasDimensions w h s in
  minRadius (windRing s') < maxRadius (windRing s')
  /\ minRadius (boatRing s') < maxRadius (boatRing s')
  /\ (Spec.radiusWithinBounds (windRing s') <-> Rmin w h * 0.16 <= radius (windRing s))
  /\ (Spec.radiusWithinBounds (boatRing s') <-> Rmin w h * 0.12 <= radius (boatRing s)).
Proof.
  intros Hw Hh. cbv zeta.
  destruct (updateCanvasDimensions_bounds_ordered w h s Hw Hh) as [H1 H2].
  destruct (updateCanvasDimensions_lower_bounds_iff w h s Hw Hh) as [H3 H4].
  split; [exact H1 |]. split; [exact H2 |].
  split.
  - rewrite H3. split; intros; lra.
  - rewrite H4. split; intros; lra.
Qed.

Lemma updateCanvasDimensions_invariant_iff_witness :
  Spec.radiusWithinBounds (windRing (updateCanvasDimensions 800 600 initialState))
  <-> Rmin 800 600 * 0.16 <= radius (windRing initialState).
Proof.
  apply (updateCanvasDimensions_invariant_iff 800 600 initialState); lra.
Defined.

(** ** Keyboard nudging, continued *)

Lemma normalizeAngle_add_normalized (a d : R) :
  normalizeAngle (normalizeAngle a + d) = normalizeAngle (a + d).
Proof.
  destruct (normalizeAngle_congruent a) as [k ->].
  replace (a + 2 * PI * IZR k + d) with (a + d + 2 * PI * IZR k) by ring.
  apply normalizeAngle_period.
Qed.

Lemma calculateApparentWind_inversion (t s' : SailingState) :
  Store.calculateApparentWind t = Some s' ->
  exists w, derivedApparentWind t = Some w /\ s' = set_apparentWind w t.
Proof.
  unfold Store.calculateApparentWind.
  destruct (derivedApparentWind t) as [w |]; [| discriminate].
  intros H. injection H as <-. eauto.
Qed.

Lemma moveSelectedRing_selected (d : Direction) (step : R) (s : SailingState)
  (sel : RingType) :
  selectedRing s = Some sel ->
  moveSelectedRing d step s =
    Store.calculateApparentWind
      (set_ringOf sel
         (match d with
          | Left => set_angle (normalizeAngle (angle (ringOf sel s) - degToRad 5))
                              (ringOf sel s)
          | Right => set_angle (normalizeAngle (angle (ringOf sel s) + degToRad 5))
                               (ringOf sel s)
          | Up => set_radius
                    (Rmin (maxRadius (ringOf sel s))
                          (radius (ringOf sel s) + maxRadius (ringOf sel s) * step))
                    (ringOf sel s)
          | Down => set_radius
                      (Rmax (minRadius (ringOf sel s))
                            (radius (ringOf sel s) - maxRadius (ringOf sel s) * step))
                      (ringOf sel s)
          end) s).
Proof. intros H. unfold moveSelectedRing. now rewrite H. Qed.

Lemma rotate_there_and_back (s : SailingState) (sel : RingType) (a b : R) :
  selectedRing s = Some sel ->
  Spec.apparentWindFresh s -> Spec.boundsDistinct s ->
  normalizeAngle (b + a) = angle (ringOf sel s) ->
  exists s1,
    Store.calculateApparentWind (set_ringOf sel (set_angle b (ringOf sel s)) s) = Some s1
    /\ Store.calculateApparentWind
         (set_ringOf sel (set_angle (normalizeAngle (angle (ringOf sel s1) + a))
                                    (ringOf sel s1)) s1) = Some s.
Proof.
  intros Hsel Hfresh Hb Hback.
  destruct (recompute_after_ring_update (dragStart s) sel
              (set_angle b (ringOf sel s)) s eq_refl eq_refl Hb) as (s1 & Hs1 & _).
  assert (Hs1' : Store.calculateApparentWind
                   (set_ringOf sel (set_angle b (ringOf sel s)) s) = Some s1).
  { rewrite <- Hs1. destruct sel, s; reflexivity. }
  exists s1. split; [exact Hs1' |].
  destruct (calculateApparentWind_inversion _ _ Hs1') as (w & _ & ->).
  clear Hs1 Hs1'.
  unfold Spec.apparentWindFresh in Hfresh.
  destruct sel; destruct s as [wr br aw cv sr dg ds];
    cbn [ringOf set_ringOf set_windRing set_boatRing set_apparentWind set_angle
         windRing boatRing apparentWind canvas selectedRing isDragging dragStart
         angle radius spokes minRadius maxRadius] in *.
  - destruct wr as [wa wrad wsp wmin wmax].
    cbn [angle radius spokes minRadius maxRadius] in *.
    rewrite Hback.
    apply (calculateApparentWind_result
             {| windRing := mkRing wa wrad wsp wmin wmax; boatRing := br;
                apparentWind := w; canvas := cv; selectedRing := sr;
                isDragging := dg; dragStart := ds |} aw).
    exact Hfresh.
  - destruct br as [ba brad bsp bmin bmax].
    cbn [angle radius spokes minRadius maxRadius] in *.
    rewrite Hback.
    apply (calculateApparentWind_result
             {| windRing := wr; boatRing := mkRing ba brad bsp bmin bmax;
                apparentWind := w; canvas := cv; selectedRing := sr;
                isDragging := dg; dragStart := ds |} aw).
    exact Hfresh.
Qed.

Lemma recompute_ring (sel : RingType) (r : Ring) (s : SailingState) :
  minRadius r = minRadius (ringOf sel s) -> maxRadius r = maxRadius (ringOf sel s) ->
  Spec.boundsDistinct s ->
  exists s',
    Store.calculateApparentWind (set_ringOf sel r s) = Some s'
    /\ ringOf sel s' = r
    /\ ringOf (Spec.otherRing sel) s' = ringOf (Spec.otherRing sel) s
    /\ selectedRing s' = selectedRing s
    /\ Spec.apparentWindFresh s'
    /\ Spec.boundsDistinct s'.
Proof.
  intros Hlo Hhi Hb.
  pose proof (boundsDistinct_set_ringOf sel r s Hlo Hhi Hb) as Hb'.
  destruct (calculateApparentWind_total (set_ringOf sel r s) (proj1 Hb') (proj2 Hb'))
    as [s' Hs'].
  exists s'. split; [exact Hs' |].
  pose proof (ringOf_after_recompute sel _ _ Hs') as E1.
  pose proof (ringOf_after_recompute (Spec.otherRing sel) _ _ Hs') as E2.
  destruct (calculateApparentWind_fresh _ _ Hs') as (Hf & _ & _ & _ & Es & _).
  destruct (set_ringOf_frame sel r s) as (F1 & F2 & F3 & _).
  split; [congruence |]. split; [congruence |]. split; [congruence |].
  split; [exact Hf |]. exact (calculateApparentWind_keeps_bounds _ _ Hs' Hb').
Qed.

Lemma rotated_ring (sel : RingType) (b : R) (s s1 : SailingState) :
  Store.calculateApparentWind (set_ringOf sel (set_angle b (ringOf sel s)) s) = Some s1 ->
  angle (ringOf sel s1) = b
  /\ radius (ringOf sel s1) = radius (ringOf sel s)
  /\ ringOf (Spec.otherRing sel) s1 = ringOf (Spec.otherRing sel) s.
Proof.
  intros H.
  rewrite (ringOf_after_recompute sel _ _ H),
    (ringOf_after_recompute (Spec.otherRing sel) _ _ H).
  destruct sel; repeat split.
Qed.

Lemma nudge_left_angle (a : R) :
  0 <= a < 2 * PI ->
  normalizeAngle (a - degToRad 5)
  = if Rle_dec (5 * PI / 180) a then a - 5 * PI / 180 else a - 5 * PI / 180 + 2 * PI.
Proof.
  intros Ha. unfold degToRad. pose proof PI_RGT_0 as Hp.
  destruct (Rle_dec _ a).
  - apply normalizeAngle_id. lra.
  - apply normalizeAngle_wrap_forward. lra.
Qed.

Lemma nudge_right_angle (a : R) :
  0 <= a < 2 * PI ->
  normalizeAngle (a + degToRad 5)
  = if Rlt_dec (a + 5 * PI / 180) (2 * PI)
    then a + 5 * PI / 180 else a + 5 * PI / 180 - 2 * PI.
Proof.
  intros Ha. unfold degToRad. pose proof PI_RGT_0 as Hp.
  destruct (Rlt_dec _ (2 * PI)).
  - apply normalizeAngle_id. lra.
  - apply normalizeAngle_wrap_back. lra.
Qed.

(** X11. With a ring selected whose angle [a] is normalized, in a store whose
    apparent wind is fresh and whose bounds are distinct, a nudge to the left
    lowers the angle by 5 degrees ([a - 5 PI / 180], plus a full turn when
    that is negative), a nudge to the right raises it by 5 degrees
    ([a + 5 PI / 180], minus a full turn from [2 PI] on); either changes the
    angle, keeps the radius and leaves the other ring alone; and nudging left
    and then right, or right and then left, returns exactly the store it
    started from.  The [step] argument plays no part in a rotation. *)
Theorem left_right_round_trip (s : SailingState) (sel : RingType) (step1 step2 : R) :
  selectedRing s = Some sel ->
  0 <= angle (ringOf sel s) < 2 * PI ->
  Spec.apparentWindFresh s -> Spec.boundsDistinct s ->
  (exists s1,
      moveSelectedRing Left step1 s = Some s1
      /\ angle (ringOf sel s1)
         = (if Rle_dec (5 * PI / 180) (angle (ringOf sel s))
            then angle (ringOf sel s) - 5 * PI / 180
            else angle (ringOf sel s) - 5 * PI / 180 + 2 * PI)
      /\ angle (ringOf sel s1) <> angle (ringOf sel s)
      /\ radius (ringOf sel s1) = radius (ringOf sel s)
      /\ ringOf (Spec.otherRing sel) s1 = ringOf (Spec.otherRing sel) s
      /\ moveSelectedRing Right step2 s1 = Some s)
  /\ (exists s1,
        moveSelectedRing Right step1 s = Some s1
        /\ angle (ringOf sel s1)
           = (if Rlt_dec (angle (ringOf sel s) + 5 * PI / 180) (2 * PI)
              then angle (ringOf sel s) + 5 * PI / 180
              else angle (ringOf sel s) + 5 * PI / 180 - 2 * PI)
        /\ angle (ringOf sel s1) <> angle (ringOf sel s)
        /\ radius (ringOf sel s1) = radius (ringOf sel s)
        /\ ringOf (Spec.otherRing sel) s1 = ringOf (Spec.otherRing sel) s
        /\ moveSelectedRing Left step2 s1 = Some s).
Proof.
  intros Hsel Ha Hf Hb. pose proof PI_RGT_0 as Hp. split.
  - destruct (rotate_there_and_back s sel (degToRad 5)
                (normalizeAngle (angle (ringOf sel s) - degToRad 5)) Hsel Hf Hb)
      as (s1 & H1 & H2).
    { rewrite normalizeAngle_add_normalized.
      replace (angle (ringOf sel s) - degToRad 5 + degToRad 5)
        with (angle (ringOf sel s)) by ring.
      now apply normalizeAngle_id. }
    exists s1. rewrite (moveSelectedRing_selected Left step1 s sel Hsel).
    split; [exact H1 |].
    destruct (rotated_ring sel _ s s1 H1) as (Eangle & Eradius & Eother).
    rewrite (nudge_left_angle _ Ha) in Eangle.
    split; [exact Eangle |].
    split. { rewrite Eangle. destruct (Rle_dec _ _); intros Heq; lra. }
    split; [exact Eradius |]. split; [exact Eother |].
    destruct (calculateApparentWind_fresh _ _ H1) as (_ & _ & _ & _ & Es & _).
    rewrite (moveSelectedRing_selected Right step2 s1 sel).
    + exact H2.
    + rewrite Es. destruct sel; exact Hsel.
  - destruct (rotate_there_and_back s sel (- degToRad 5)
                (normalizeAngle (angle (ringOf sel s) + degToRad 5)) Hsel Hf Hb)
      as (s1 & H1 & H2).
    { rewrite normalizeAngle_add_normalized.
      replace (angle (ringOf sel s) + degToRad 5 + - degToRad 5)
        with (angle (ringOf sel s)) by ring.
      now apply normalizeAngle_id. }
    exists s1. rewrite (moveSelectedRing_selected Right step1 s sel Hsel).
    split; [exact H1 |].
    destruct (rotated_ring sel _ s s1 H1) as (Eangle & Eradius & Eother).
    rewrite (nudge_right_angle _ Ha) in Eangle.
    split; [exact Eangle |].
    split. { rewrite Eangle. destruct (Rlt_dec _ _); intros Heq; lra. }
    split; [exact Eradius |]. split; [exact Eother |].
    destruct (calculateApparentWind_fresh _ _ H1) as (_ & _ & _ & _ & Es & _).
    rewrite (moveSelectedRing_selected Left step2 s1 sel).
    + exact H2.
    + rewrite Es. destruct sel; exact Hsel.
Qed.

Lemma boatDraggedEast_fresh : Spec.apparentWindFresh Scenario.boatDraggedEast.
Proof. exact (proj1 (calculateApparentWind_fresh _ _ drag_boat_east)). Qed.

Lemma boatDraggedEast_bounds : Spec.boundsDistinct Scenario.boatDraggedEast.
Proof. unfold Spec.boundsDistinct. cbn. lra. Qed.

Lemma left_right_round_trip_witness :
  exists s1,
    moveSelectedRing Left 0.05 Scenario.boatDraggedEast = Some s1
    /\ angle (ringOf boat s1) <> angle (ringOf boat Scenario.boatDraggedEast)
    /\ moveSelectedRing Right 0.05 s1 = Some Scenario.boatDraggedEast.
Proof.
  destruct (left_right_round_trip Scenario.boatDraggedEast boat 0.05 0.05)
    as [(s1 & H1 & _ & Hne & _ & _ & H2) _].
  - reflexivity.
  - cbn. pose proof PI_RGT_0. lra.
  - exact boatDraggedEast_fresh.
  - exact boatDraggedEast_bounds.
  - exists s1. split; [exact H1 | split; [exact Hne | exact H2]].
Defined.

(** X12. With a ring selected that satisfies
    [minRadius <= radius <= maxRadius], a step that is not negative, a
    [maxRadius] that is not negative and distinct bounds, every nudge returns
    a store in which the ring still satisfies the bounds, which are unchanged:
    left and right keep the radius and leave a normalized angle, up keeps the
    angle and does not shrink the radius, down keeps the angle and does not
    enlarge it. *)
Theorem nudge_keeps_radius_within_bounds (d : Direction) (step : R)
  (s : SailingState) (sel : RingType) :
  selectedRing s = Some sel ->
  Spec.radiusWithinBounds (ringOf sel s) ->
  0 <= step -> 0 <= maxRadius (ringOf sel s) -> Spec.boundsDistinct s ->
  exists s',
    moveSelectedRing d step s = Some s'
    /\ Spec.radiusWithinBounds (ringOf sel s')
    /\ minRadius (ringOf sel s') = minRadius (ringOf sel s)
    /\ maxRadius (ringOf sel s') = maxRadius (ringOf sel s)
    /\ ringOf (Spec.otherRing sel) s' = ringOf (Spec.otherRing sel) s
    /\ match d with
       | Left | Right =>
           radius (ringOf sel s') = radius (ringOf sel s)
           /\ 0 <= angle (ringOf sel s') < 2 * PI
       | Up =>
           angle (ringOf sel s') = angle (ringOf sel s)
           /\ radius (ringOf sel s) <= radius (ringOf sel s')
       | Down =>
           angle (ringOf sel s') = angle (ringOf sel s)
           /\ radius (ringOf sel s') <= radius (ringOf sel s)
       end.
Proof.
  intros Hsel [Hlo Hhi] Hstep Hmax Hb.
  rewrite (moveSelectedRing_selected d step s sel Hsel).
  assert (Hprod : 0 <= maxRadius (ringOf sel s) * step) by now apply Rmult_le_pos.
  destruct d;
    match goal with
    | |- exists _, Store.calculateApparentWind (set_ringOf _ ?r _) = _ /\ _ =>
        destruct (recompute_ring sel r s eq_refl eq_refl Hb)
          as (s' & Hs' & Er & Eo & _)
    end;
    exists s'; (split; [exact Hs' |]); rewrite Er;
    unfold Spec.radiusWithinBounds;
    cbn [set_angle set_radius angle radius minRadius maxRadius];
    (split; [| split; [reflexivity | split; [reflexivity | split; [exact Eo |]]]]).
  - lra.
  - split; [reflexivity | apply normalizeAngle_range].
  - lra.
  - split; [reflexivity | apply normalizeAngle_range].
  - split; [apply Rmin_glb; lra | apply Rmin_l].
  - split; [reflexivity | apply Rmin_glb; lra].
  - split; [apply Rmax_l | apply Rmax_lub; lra].
  - split; [reflexivity | apply Rmax_lub; lra].
Qed.

Lemma nudge_keeps_radius_within_bounds_witness :
  exists s',
    moveSelectedRing Up 0.05 Scenario.boatDraggedEast = Some s'
    /\ Spec.radiusWithinBounds (ringOf boat s').
Proof.
  destruct (nudge_keeps_radius_within_bounds Up 0.05 Scenario.boatDraggedEast boat)
    as (s' & H1 & H2 & _).
  - reflexivity.
  - unfold Spec.radiusWithinBounds. cbn. lra.
  - lra.
  - cbn. lra.
  - exact boatDraggedEast_bounds.
  - exists s'. split; assumption.
Defined.

(** ** Dragging, continued *)

Lemma updateRingDrag_app_total_aux (p : Vector2D) (s : SailingState) (sel : RingType) :
  selectedRing s = Some sel -> isDragging s = true -> Spec.boundsDistinct s ->
  let dx := x p - centerX (canvas s) in
  let dy := y p - centerY (canvas s) in
  let t :=
    set_dragStart (Some p)
      (set_ringOf sel
         (set_angle (normalizeAngle (JS.atan2 dy dx))
            (set_radius
               (Rmax (minRadius (ringOf sel s))
                     (Rmin (maxRadius (ringOf sel s)) (sqrt (dx * dx + dy * dy))))
               (ringOf sel s)))
         s) in
  exists s' w,
    AppStore.updateRingDrag p s = Some s'
    /\ derivedApparentWind t = Some w
    /\ s' = set_apparentWind w t.
Proof.
  intros Hsel Hdrag Hb. cbv zeta.
  rewrite (AppStore_updateRingDrag_dragging p s sel Hsel Hdrag). cbv zeta.
  match goal with
  | |- exists _ _, Store.calculateApparentWind (set_dragStart _ (set_ringOf _ ?r _)) = _ /\ _ =>
      destruct (recompute_after_ring_update (Some p) sel r s eq_refl eq_refl Hb)
        as (s' & Hs' & _)
  end.
  destruct (calculateApparentWind_inversion _ _ Hs') as (w & Hd & E).
  exists s', w. repeat split; assumption.
Qed.

(** X13. In app/stores/sailing.ts, a drag update of a ring whose bounds are
    ordered yields a ring with [minRadius <= radius <= maxRadius] and a
    normalized angle, whatever the radius was before, and repeating the
    update with the same pointer changes nothing. *)
Theorem app_drag_establishes_bounds (p : Vector2D) (s : SailingState) (sel : RingType) :
  selectedRing s = Some sel -> isDragging s = true ->
  minRadius (ringOf sel s) <= maxRadius (ringOf sel s) ->
  Spec.boundsDistinct s ->
  exists s',
    AppStore.updateRingDrag p s = Some s'
    /\ Spec.radiusWithinBounds (ringOf sel s')
    /\ 0 <= angle (ringOf sel s') < 2 * PI
    /\ AppStore.updateRingDrag p s' = Some s'.
Proof.
  intros Hsel Hdrag Hord Hb.
  destruct (updateRingDrag_app_total_aux p s sel Hsel Hdrag Hb)
    as (s' & w & Hs' & Hd & ->).
  eexists. split; [exact Hs' |].
  split.
  { unfold Spec.radiusWithinBounds.
    destruct sel; cbn [ringOf set_apparentWind set_dragStart set_ringOf set_windRing
                       set_boatRing windRing boatRing set_angle set_radius
                       radius minRadius maxRadius];
      split; [apply Rmax_l | apply Rmax_lub; [exact Hord | apply Rmin_l]
             | apply Rmax_l | apply Rmax_lub; [exact Hord | apply Rmin_l]]. }
  split.
  { destruct sel; cbn; apply normalizeAngle_range. }
  rewrite (AppStore_updateRingDrag_dragging p _ sel);
    [| destruct sel; exact Hsel | destruct sel; exact Hdrag].
  cbv zeta. clear Hs'.
  unfold Store.calculateApparentWind.
  destruct sel; destruct s as [wr br aw cv sr dg ds];
    cbn [ringOf set_ringOf set_windRing set_boatRing set_apparentWind set_angle
         set_radius set_dragStart windRing boatRing apparentWind canvas
         selectedRing isDragging dragStart
         angle radius spokes minRadius maxRadius] in *;
    revert Hd;
    generalize (normalizeAngle (JS.atan2 (y p - centerY cv) (x p - centerX cv)));
    generalize (sqrt ((x p - centerX cv) * (x p - centerX cv)
                      + (y p - centerY cv) * (y p - centerY cv)));
    intros v a Hd.
  - set (t := {| windRing := {| angle := a;
                               radius := Rmax (minRadius wr) (Rmin (maxRadius wr) v);
                               spokes := spokes wr; minRadius := minRadius wr;
                               maxRadius := maxRadius wr |};
                boatRing := br; apparentWind := aw; canvas := cv; selectedRing := sr;
                isDragging := dg; dragStart := Some p |}).
    change (derivedApparentWind t = Some w) in Hd.
    change (derivedApparentWind _) with (derivedApparentWind t).
    rewrite Hd. reflexivity.
  - set (t := {| windRing := wr;
                boatRing := {| angle := a;
                               radius := Rmax (minRadius br) (Rmin (maxRadius br) v);
                               spokes := spokes br; minRadius := minRadius br;
                               maxRadius := maxRadius br |};
                apparentWind := aw; canvas := cv; selectedRing := sr;
                isDragging := dg; dragStart := Some p |}).
    change (derivedApparentWind t = Some w) in Hd.
    change (derivedApparentWind _) with (derivedApparentWind t).
    rewrite Hd. reflexivity.
Qed.

Lemma app_drag_establishes_bounds_witness :
  exists s',
    AppStore.updateRingDrag {| x := 800; y := 600 |}
      (startRingDrag wind {| x := 800; y := 600 |}
         (updateCanvasDimensions 1600 1200 initialState)) = Some s'
    /\ Spec.radiusWithinBounds (ringOf wind s').
Proof.
  destruct (app_drag_establishes_bounds {| x := 800; y := 600 |}
              (startRingDrag wind {| x := 800; y := 600 |}
                 (updateCanvasDimensions 1600 1200 initialState)) wind)
    as (s' & H1 & H2 & _).
  - reflexivity.
  - reflexivity.
  - cbn. real_cases.
  - unfold Spec.boundsDistinct. cbn. real_cases.
  - exists s'. split; assumption.
Defined.

(** X23. In stores/sailing.ts, a drag update whose signed turn since the
    anchor is negative keeps the radius and rotates the ring by that turn,
    however small the turn is, as long as the radial movement is at most
    [PI] times the anchor's distance from the center: the tangential movement
    is computed from the turn normalized into $[0, 2\pi)$, which exceeds
    [PI] for a negative turn. *)
Theorem negative_turn_rotates (p start : Vector2D) (s : SailingState) (sel : RingType) :
  selectedRing s = Some sel -> dragStart s = Some start -> isDragging s = true ->
  Spec.boundsDistinct s ->
  Spec.signedTurn (Spec.direction start s) (Spec.direction p s) < 0 ->
  Rabs (distance p (Spec.center s) - distance start (Spec.center s))
    <= PI * distance start (Spec.center s) ->
  exists s',
    RootStore.updateRingDrag p s = Some s'
    /\ Spec.angularUpdate p start s sel s'.
Proof.
  intros Hsel Hstart Hdrag Hb Hturn Hrad.
  rewrite (RootStore_updateRingDrag_dragging p start s sel Hsel Hstart Hdrag).
  cbv zeta. fold (Spec.direction start s) (Spec.direction p s).
  pose proof (distance_nonneg start (Spec.center s)) as Hd.
  pose proof (normalizeAngle_range (Spec.direction p s - Spec.direction start s)) as Hn.
  assert (Hbig : PI < normalizeAngle (Spec.direction p s - Spec.direction start s)).
  { unfold Spec.signedTurn in Hturn. cbv zeta in Hturn.
    destruct (Rle_dec _ PI) in Hturn; lra. }
  destruct (Rgt_dec _ _) as [Hgt | _].
  - exfalso.
    rewrite (Rabs_right (distance start (Spec.center s) * _)) in Hgt
      by (apply Rle_ge, Rmult_le_pos; lra).
    nra.
  - match goal with
    | |- exists _, Store.calculateApparentWind (set_dragStart _ (set_ringOf _ ?r _)) = _ /\ _ =>
        destruct (drag_recompute p s sel r Hsel Hdrag eq_refl eq_refl Hb)
          as (s' & Hs' & Er & _)
    end.
    exists s'. split; [exact Hs' |].
    unfold Spec.angularUpdate. cbv zeta. rewrite Er.
    split; [reflexivity |]. cbn [set_angle angle].
    apply normalizeAngle_add_signedTurn.
Qed.

Lemma negative_turn_rotates_witness :
  exists s',
    RootStore.updateRingDrag {| x := 600; y := 299 |}
      (startRingDrag wind {| x := 590; y := 300 |} initialState) = Some s'
    /\ radius (windRing s') = 180.
Proof.
  pose proof PI2_3_2 as Hpi.
  destruct (negative_turn_rotates {| x := 600; y := 299 |} {| x := 590; y := 300 |}
              (startRingDrag wind {| x := 590; y := 300 |} initialState) wind)
    as (s' & Hs' & Hr & _).
  - reflexivity.
  - reflexivity.
  - reflexivity.
  - unfold Spec.boundsDistinct. cbn. lra.
  - unfold Spec.signedTurn, Spec.direction. cbv zeta.
    cbn [Spec.center startRingDrag canvas initialState centerX centerY x y].
    replace (300 - 300) with 0 by ring.
    rewrite atan2_positive_x_axis by lra.
    unfold JS.atan2. destruct (Rlt_dec 0 (600 - 400)) as [_ | H]; [| lra].
    pose proof (atan_bound ((299 - 300) / (600 - 400))) as Hb.
    assert (Hneg : atan ((299 - 300) / (600 - 400)) < 0).
    { rewrite <- atan_0. apply atan_increasing. lra. }
    rewrite normalizeAngle_wrap_forward by lra.
    destruct (Rle_dec _ PI); lra.
  - change (Spec.center (startRingDrag wind {| x := 590; y := 300 |} initialState))
      with {| x := 400; y := 300 |}.
    rewrite (distance_on_axis 590 400 300) by lra.
    unfold distance. cbn [x y].
    assert (Hlo : 200 <= sqrt ((600 - 400) * (600 - 400) + (299 - 300) * (299 - 300))).
    { rewrite <- (sqrt_square 200) at 1 by lra. apply sqrt_le_1_alt. lra. }
    assert (Hhi : sqrt ((600 - 400) * (600 - 400) + (299 - 300) * (299 - 300)) <= 201).
    { rewrite <- (sqrt_square 201) by lra. apply sqrt_le_1_alt. lra. }
    rewrite Rabs_right by lra. lra.
  - exists s'. split; [exact Hs' | exact Hr].
Defined.

(** ** Hit testing and handle positions *)

Lemma getRingAt_prefers_wind_aux (p : Vector2D) (s : SailingState) :
  Rabs (distance p (Spec.center s) - radius (windRing s)) < 20
  <-> Controller.getRingAt p s = Some wind.
Proof.
  unfold Controller.getRingAt. fold (Spec.center s).
  destruct (Rlt_dec _ 20) as [Hw | Hw].
  - split; intros; [reflexivity | assumption].
  - split; intros H; [contradiction |].
    destruct (Rlt_dec _ 20); discriminate.
Qed.

Lemma handle_distance (cx cy r t : R) :
  distance {| x := cx + r * cos t; y := cy + r * sin t |} {| x := cx; y := cy |}
  = Rabs r.
Proof.
  unfold distance. cbn [x y].
  replace ((cx + r * cos t - cx) * (cx + r * cos t - cx)
           + (cy + r * sin t - cy) * (cy + r * sin t - cy))
    with (Rsqr r).
  - apply sqrt_Rsqr_abs.
  - pose proof (sin2_cos2 t) as H. unfold Rsqr in *. nra.
Qed.

(** X15. [ringHandles] returns one handle per spoke; every handle lies at
    distance [|radius|] from the canvas center and carries a normalized
    angle; the first handle sits at the ring's own angle; and a pointer-down
    exactly on a handle of the wind ring hits the wind ring whenever the wind
    radius is not negative. *)
Theorem ringHandles_on_ring (s : SailingState) (ring : Ring) :
  length (ringHandles s ring) = spokes ring
  /\ Forall (fun h => distance (Spec.handlePoint h) (Spec.center s) = Rabs (radius ring)
                      /\ 0 <= theta h < 2 * PI)
            (ringHandles s ring)
  /\ (forall h, hd_error (ringHandles s ring) = Some h ->
        handle_x h = centerX (canvas s) + radius ring * cos (angle ring)
        /\ handle_y h = centerY (canvas s) + radius ring * sin (angle ring)
        /\ theta h = normalizeAngle (angle ring))
  /\ (forall h, In h (windHandles s) -> 0 <= radius (windRing s) ->
        Controller.getRingAt (Spec.handlePoint h) s = Some wind).
Proof.
  split; [unfold ringHandles; now rewrite length_map, length_seq |].
  assert (Hall : forall r, Forall (fun h => distance (Spec.handlePoint h) (Spec.center s)
                                            = Rabs (radius r)
                                            /\ 0 <= theta h < 2 * PI)
                                  (ringHandles s r)).
  { intros r. unfold ringHandles. apply Forall_forall. intros h Hin.
    apply in_map_iff in Hin as (i & <- & _).
    unfold Spec.handlePoint, Spec.center. cbn [handle_x handle_y theta].
    split; [apply handle_distance | apply normalizeAngle_range]. }
  split; [apply Hall |].
  split.
  - unfold ringHandles. destruct (spokes ring) as [| n]; [discriminate |].
    cbn [seq map hd_error]. intros h H. injection H as <-.
    cbn [handle_x handle_y theta].
    match goal with
    | |- context [0 * 2 * PI / ?q] =>
        replace (0 * 2 * PI / q) with 0 by (unfold Rdiv; ring)
    end.
    rewrite Rplus_0_r. repeat split.
  - intros h Hin Hr.
    pose proof (Hall (windRing s)) as Hf. rewrite Forall_forall in Hf.
    destruct (Hf h Hin) as [Hd _].
    apply (proj1 (getRingAt_prefers_wind_aux (Spec.handlePoint h) s)).
    rewrite Hd, (Rabs_right (radius (windRing s))) by lra.
    rewrite Rminus_diag, Rabs_R0. lra.
Qed.

Lemma ringHandles_distance (s : SailingState) (ring : Ring) (h : HandlePosition) :
  In h (ringHandles s ring) ->
  distance (Spec.handlePoint h) (Spec.center s) = Rabs (radius ring).
Proof.
  unfold ringHandles. intros Hin.
  apply in_map_iff in Hin as (i & <- & _).
  unfold Spec.handlePoint, Spec.center. cbn [handle_x handle_y].
  apply handle_distance.
Qed.

(** X14. A pointer-down exactly on a handle of the boat ring, whose radius is
    not negative, picks the boat ring only when the radii of the two rings are
    at least 20 pixels apart; when they are closer, [getRingAt] answers with
    the wind ring at every handle of the boat ring. *)
Theorem boat_handle_hit (s : SailingState) (h : HandlePosition) :
  In h (boatHandles s) -> 0 <= radius (boatRing s) ->
  Controller.getRingAt (Spec.handlePoint h) s
  = if Rlt_dec (Rabs (radius (boatRing s) - radius (windRing s))) 20
    then Some wind else Some boat.
Proof.
  intros Hin Hr.
  pose proof (ringHandles_distance s (boatRing s) h Hin) as Hd.
  rewrite Rabs_right in Hd by lra.
  unfold Controller.getRingAt. fold (Spec.center s). cbv zeta. rewrite Hd.
  destruct (Rlt_dec _ 20) as [Hw | Hw]; [reflexivity |].
  rewrite Rminus_diag, Rabs_R0.
  destruct (Rlt_dec 0 20) as [_ | Hn]; [reflexivity | lra].
Qed.

Lemma boat_handle_hit_witness :
  exists h,
    hd_error (boatHandles initialState) = Some h
    /\ Controller.getRingAt (Spec.handlePoint h) initialState = Some boat.
Proof.
  eexists. split; [reflexivity |].
  rewrite boat_handle_hit.
  - cbn [initialState boatRing windRing radius].
    destruct (Rlt_dec _ 20) as [H | _]; [| reflexivity].
    exfalso. revert H. real_cases.
  - left. reflexivity.
  - cbn. lra.
Defined.

(** ** Invariants of the event loop *)

(** X16. While no drag is in progress and no ring is selected, pointer-move,
    pointer-up and key events leave the store exactly as it is. *)
Theorem passive_events_change_nothing (events : list Controller.Event)
  (g : Controller.Gestures) :
  Controller.isDragging g = false ->
  selectedRing (Controller.store g) = None ->
  forallb Spec.passiveEvent events = true ->
  exists g', Controller.run events g = Some g'
             /\ Controller.store g' = Controller.store g.
Proof.
  revert g. induction events as [| e rest IH]; intros g Hidle Hsel Hall.
  - exists g. split; reflexivity.
  - cbn [forallb] in Hall. apply andb_true_iff in Hall as [He Hrest].
    assert (Hstep : exists g1, Controller.dispatch e g = Some g1
                               /\ Controller.store g1 = Controller.store g
                               /\ Controller.isDragging g1 = false).
    { destruct e as [q | q | | k | w h]; cbn [Spec.passiveEvent] in He;
        try discriminate; cbn [Controller.dispatch].
      - unfold Controller.handleMouseMove. rewrite Hidle. eauto.
      - unfold Controller.handleMouseUp. rewrite Hidle. eauto.
      - unfold Controller.handleKeyDown. rewrite Hsel. eauto. }
    destruct Hstep as (g1 & Hd & Es & Ei).
    destruct (IH g1 Ei ltac:(now rewrite Es) Hrest) as (g' & Hrun & Eg).
    exists g'. cbn [Controller.run]. rewrite Hd. split; congruence.
Qed.

Lemma passive_events_change_nothing_witness :
  exists g',
    Controller.run [Controller.MouseMove {| x := 600; y := 300 |};
                    Controller.KeyDown Controller.ArrowLeft;
                    Controller.MouseUp]
                   Scenario.idle = Some g'
    /\ Controller.store g' = Controller.store Scenario.idle.
Proof.
  apply (passive_events_change_nothing
           [Controller.MouseMove {| x := 600; y := 300 |};
            Controller.KeyDown Controller.ArrowLeft;
            Controller.MouseUp] Scenario.idle); reflexivity.
Defined.

Lemma RootStore_updateRingDrag_fresh (p : Vector2D) (s s' : SailingState) :
  RootStore.updateRingDrag p s = Some s' ->
  Spec.apparentWindFresh s -> Spec.apparentWindFresh s'.
Proof.
  intros H Hf.
  destruct (selectedRing s) as [sel |] eqn:Hsel;
    [| rewrite RootStore_updateRingDrag_idle in H by (now left);
       now injection H as <-].
  destruct (dragStart s) as [start |] eqn:Hstart;
    [| rewrite RootStore_updateRingDrag_idle in H by (right; now left);
       now injection H as <-].
  destruct (isDragging s) eqn:Hdrag;
    [| rewrite RootStore_updateRingDrag_idle in H by (right; now right);
       now injection H as <-].
  rewrite (RootStore_updateRingDrag_dragging p start s sel Hsel Hstart Hdrag) in H.
  exact (proj1 (calculateApparentWind_fresh _ _ H)).
Qed.

Lemma dispatch_keeps_fresh (e : Controller.Event) (g g' : Controller.Gestures) :
  Spec.resizeEvent e = false ->
  Spec.apparentWindFresh (Controller.store g) ->
  Controller.dispatch e g = Some g' ->
  Spec.apparentWindFresh (Controller.store g').
Proof.
  intros He Hf.
  destruct e as [q | q | | k | w h]; cbn [Spec.resizeEvent] in He; try discriminate;
    cbn [Controller.dispatch].
  - intros H. injection H as <-. unfold Controller.handleMouseDown.
    destruct (Controller.getRingAt q (Controller.store g)); exact Hf.
  - unfold Controller.handleMouseMove.
    destruct (Controller.isDragging g), (Controller.currentRing g);
      try (intros H; injection H as <-; exact Hf).
    destruct (RootStore.updateRingDrag q (Controller.store g)) as [s' |] eqn:Hu;
      [| discriminate].
    intros H. injection H as <-.
    exact (RootStore_updateRingDrag_fresh _ _ _ Hu Hf).
  - intros H. injection H as <-. unfold Controller.handleMouseUp.
    destruct (Controller.isDragging g), (Controller.currentRing g); exact Hf.
  - unfold Controller.handleKeyDown.
    destruct (selectedRing (Controller.store g)) as [sel |] eqn:Hsel;
      [| intros H; injection H as <-; exact Hf].
    destruct k;
      try (destruct (moveSelectedRing _ _ _) as [s' |] eqn:Hm; [| discriminate];
           intros H; injection H as <-;
           destruct (moveSelectedRing_effect _ _ _ _ Hm) as (_ & _ & _ & _ & Ho);
           exact (proj2 (Ho sel Hsel)));
      intros H; injection H as <-; exact Hf.
Qed.

(** X17. Starting from a store whose apparent wind is fresh and whose bounds
    are distinct, every sequence of pointer and key events without a resize
    runs to the end and leaves a store whose apparent wind is fresh: mouse
    and keyboard never leave a stale apparent wind behind. *)
Theorem events_keep_apparentWind_fresh (events : list Controller.Event)
  (g : Controller.Gestures) :
  Spec.apparentWindFresh (Controller.store g) ->
  Spec.boundsDistinct (Controller.store g) ->
  forallb (fun e => negb (Spec.resizeEvent e)) events = true ->
  exists g', Controller.run events g = Some g'
             /\ Spec.apparentWindFresh (Controller.store g').
Proof.
  revert g. induction events as [| e rest IH]; intros g Hf Hb Hall.
  - exists g. split; [reflexivity | exact Hf].
  - cbn [forallb] in Hall. apply andb_true_iff in Hall as [He Hrest].
    apply negb_true_iff in He.
    destruct (dispatch_total e g) as (g1 & Hd & Hb1);
      [destruct e; try reflexivity; discriminate | exact Hb |].
    pose proof (dispatch_keeps_fresh e g g1 He Hf Hd) as Hf1.
    destruct (IH g1 Hf1 Hb1 Hrest) as (g' & Hrun & Hf').
    exists g'. cbn [Controller.run]. rewrite Hd. split; assumption.
Qed.

Lemma events_keep_apparentWind_fresh_witness :
  exists g',
    Controller.run [Controller.KeyDown Controller.ArrowLeft;
                    Controller.MouseDown {| x := 520; y := 300 |};
                    Controller.MouseMove {| x := 500; y := 320 |};
                    Controller.MouseUp]
                   Scenario.boatSelected = Some g'
    /\ Spec.apparentWindFresh (Controller.store g').
Proof.
  apply (events_keep_apparentWind_fresh
           [Controller.KeyDown Controller.ArrowLeft;
            Controller.MouseDown {| x := 520; y := 300 |};
            Controller.MouseMove {| x := 500; y := 320 |};
            Controller.MouseUp] Scenario.boatSelected).
  - exact boatDraggedEast_fresh.
  - exact boatDraggedEast_bounds.
  - reflexivity.
Defined.

Lemma storeInvariant_boundsDistinct (s : SailingState) :
  Spec.storeInvariant s -> Spec.boundsDistinct s.
Proof.
  intros [(_ & _ & Hw & _) (_ & _ & Hb & _)]. split; lra.
Qed.

Lemma storeInvariant_set_ringOf (sel : RingType) (r : Ring) (s : SailingState) :
  Spec.storeInvariant s -> Spec.ringInvariant r ->
  Spec.storeInvariant (set_ringOf sel r s).
Proof. intros [Hw Hb] Hr. destruct sel; split; assumption. Qed.

Lemma storeInvariant_ringOf (sel : RingType) (s : SailingState) :
  Spec.storeInvariant s -> Spec.ringInvariant (ringOf sel s).
Proof. intros [Hw Hb]. destruct sel; assumption. Qed.

Lemma storeInvariant_recompute (t s' : SailingState) :
  Store.calculateApparentWind t = Some s' ->
  Spec.storeInvariant t -> Spec.storeInvariant s'.
Proof.
  intros H Hi. destruct (calculateApparentWind_fresh _ _ H) as (_ & Ew & Eb & _).
  unfold Spec.storeInvariant. now rewrite Ew, Eb.
Qed.

Lemma ringInvariant_rotate (a : R) (r : Ring) :
  Spec.ringInvariant r -> Spec.ringInvariant (set_angle (normalizeAngle a) r).
Proof.
  intros (_ & H2 & H3 & H4). unfold Spec.ringInvariant. cbn.
  split; [apply normalizeAngle_range |]. repeat split; assumption.
Qed.

Lemma ringInvariant_radius (v : R) (r : Ring) :
  Spec.ringInvariant r -> v <= maxRadius r -> Spec.ringInvariant (set_radius v r).
Proof.
  intros (H1 & _ & H3 & H4) Hv. unfold Spec.ringInvariant. cbn.
  repeat split; try assumption; apply H1.
Qed.

Lemma moveSelectedRing_invariant (d : Direction) (step : R) (s s' : SailingState) :
  0 <= step -> Spec.storeInvariant s ->
  moveSelectedRing d step s = Some s' -> Spec.storeInvariant s'.
Proof.
  intros Hstep Hi H.
  destruct (selectedRing s) as [sel |] eqn:Hsel;
    [| rewrite moveSelectedRing_unselected in H by assumption; now injection H as <-].
  rewrite (moveSelectedRing_selected d step s sel Hsel) in H.
  apply (storeInvariant_recompute _ _ H).
  apply storeInvariant_set_ringOf; [exact Hi |].
  pose proof (storeInvariant_ringOf sel s Hi) as Hr.
  destruct Hr as (Ha & Hrad & Hord & Hpos).
  assert (Hr : Spec.ringInvariant (ringOf sel s)) by (repeat split; tauto).
  destruct d.
  - now apply ringInvariant_rotate.
  - now apply ringInvariant_rotate.
  - apply ringInvariant_radius; [exact Hr | apply Rmin_l].
  - apply ringInvariant_radius; [exact Hr |].
    apply Rmax_lub; [lra | nra].
Qed.

Lemma RootStore_updateRingDrag_invariant (p : Vector2D) (s s' : SailingState) :
  Spec.storeInvariant s ->
  RootStore.updateRingDrag p s = Some s' -> Spec.storeInvariant s'.
Proof.
  intros Hi H.
  destruct (selectedRing s) as [sel |] eqn:Hsel;
    [| rewrite RootStore_updateRingDrag_idle in H by (now left);
       now injection H as <-].
  destruct (dragStart s) as [start |] eqn:Hstart;
    [| rewrite RootStore_updateRingDrag_idle in H by (right; now left);
       now injection H as <-].
  destruct (isDragging s) eqn:Hdrag;
    [| rewrite RootStore_updateRingDrag_idle in H by (right; now right);
       now injection H as <-].
  rewrite (RootStore_updateRingDrag_dragging p start s sel Hsel Hstart Hdrag) in H.
  cbv zeta in H.
  apply (storeInvariant_recompute _ _ H).
  change (Spec.storeInvariant
            (set_ringOf sel
               (if Rgt_dec
                     (Rabs (distance p (Spec.center s) - distance start (Spec.center s)))
                     (Rabs (distance start (Spec.center s)
                            * normalizeAngle
                                (JS.atan2 (y p - y (Spec.center s)) (x p - x (Spec.center s))
                                 - JS.atan2 (y start - y (Spec.center s))
                                            (x start - x (Spec.center s)))))
                then set_radius
                       (Rmax (minRadius (ringOf sel s))
                             (Rmin (maxRadius (ringOf sel s))
                                   (radius (ringOf sel s)
                                    + (distance p (Spec.center s)
                                       - distance start (Spec.center s)))))
                       (ringOf sel s)
                else set_angle
                       (normalizeAngle
                          (angle (ringOf sel s)
                           + normalizeAngle
                               (JS.atan2 (y p - y (Spec.center s)) (x p - x (Spec.center s))
                                - JS.atan2 (y start - y (Spec.center s))
                                           (x start - x (Spec.center s)))))
                       (ringOf sel s))
               s)).
  apply storeInvariant_set_ringOf; [exact Hi |].
  pose proof (storeInvariant_ringOf sel s Hi) as Hr.
  destruct (Rgt_dec _ _).
  - apply ringInvariant_radius; [exact Hr |].
    destruct Hr as (_ & _ & Hord & _). apply Rmax_lub; [lra | apply Rmin_l].
  - now apply ringInvariant_rotate.
Qed.

Lemma updateCanvasDimensions_invariant (w h : R) (s : SailingState) :
  0 < w -> 0 < h -> Spec.storeInvariant s ->
  Spec.storeInvariant (updateCanvasDimensions w h s).
Proof.
  intros Hw Hh [(Ha1 & _) (Ha2 & _)].
  assert (0 < Rmin w h) by (apply Rmin_glb_lt; assumption).
  unfold Spec.storeInvariant, Spec.ringInvariant. cbn.
  repeat split; try apply Ha1; try apply Ha2; try apply Rmin_r; lra.
Qed.

Lemma dispatch_invariant (e : Controller.Event) (g g' : Controller.Gestures) :
  Spec.emptyResize e = false ->
  Spec.storeInvariant (Controller.store g) ->
  Controller.dispatch e g = Some g' ->
  Spec.storeInvariant (Controller.store g').
Proof.
  intros He Hi.
  destruct e as [q | q | | k | w h]; cbn [Controller.dispatch].
  - intros H. injection H as <-. unfold Controller.handleMouseDown.
    destruct (Controller.getRingAt q (Controller.store g)); exact Hi.
  - unfold Controller.handleMouseMove.
    destruct (Controller.isDragging g), (Controller.currentRing g);
      try (intros H; injection H as <-; exact Hi).
    destruct (RootStore.updateRingDrag q (Controller.store g)) as [s' |] eqn:Hu;
      [| discriminate].
    intros H. injection H as <-.
    exact (RootStore_updateRingDrag_invariant _ _ _ Hi Hu).
  - intros H. injection H as <-. unfold Controller.handleMouseUp.
    destruct (Controller.isDragging g), (Controller.currentRing g); exact Hi.
  - unfold Controller.handleKeyDown.
    destruct (selectedRing (Controller.store g)) as [sel |] eqn:Hsel;
      [| intros H; injection H as <-; exact Hi].
    assert (Hstep : 0 <= 0.05) by lra.
    destruct k;
      try (destruct (moveSelectedRing _ _ _) as [s' |] eqn:Hm; [| discriminate];
           intros H; injection H as <-;
           exact (moveSelectedRing_invariant _ _ _ _ Hstep Hi Hm));
      intros H; injection H as <-; exact Hi.
  - cbn [Spec.emptyResize] in He.
    destruct (Rlt_dec 0 w) as [Hw |]; [| discriminate].
    destruct (Rlt_dec 0 h) as [Hh |]; [| discriminate].
    intros H. injection H as <-.
    now apply updateCanvasDimensions_invariant.
Qed.

(** X18. Starting from a store in which both rings have a normalized angle,
    [radius <= maxRadius] and [0 < maxRadius] with [minRadius < maxRadius]
    (the initial store is one), every sequence of pointer, key and resize
    events in which each resize has a positive width and height runs to the
    end and leaves a store with the same properties. *)
Theorem events_keep_store_invariant (events : list Controller.Event)
  (g : Controller.Gestures) :
  Spec.storeInvariant (Controller.store g) ->
  forallb (fun e => negb (Spec.emptyResize e)) events = true ->
  exists g', Controller.run events g = Some g'
             /\ Spec.storeInvariant (Controller.store g').
Proof.
  revert g. induction events as [| e rest IH]; intros g Hi Hall.
  - exists g. split; [reflexivity | exact Hi].
  - cbn [forallb] in Hall. apply andb_true_iff in Hall as [He Hrest].
    apply negb_true_iff in He.
    destruct (dispatch_total e g He (storeInvariant_boundsDistinct _ Hi))
      as (g1 & Hd & _).
    pose proof (dispatch_invariant e g g1 He Hi Hd) as Hi1.
    destruct (IH g1 Hi1 Hrest) as (g' & Hrun & Hi').
    exists g'. cbn [Controller.run]. rewrite Hd. split; assumption.
Qed.

Lemma initialState_invariant : Spec.storeInvariant initialState.
Proof.
  pose proof PI_RGT_0 as Hpi.
  unfold Spec.storeInvariant, Spec.ringInvariant. cbn. unfold degToRad.
  repeat split; lra.
Qed.

Lemma events_keep_store_invariant_witness :
  exists g', Controller.run Scenario.session Scenario.idle = Some g'
             /\ Spec.storeInvariant (Controller.store g').
Proof.
  apply (events_keep_store_invariant Scenario.session Scenario.idle).
  - exact initialState_invariant.
  - unfold Scenario.session. cbn [forallb Spec.emptyResize negb andb].
    destruct (Rlt_dec 0 1000) as [_ | H]; [| exfalso; apply H; lra].
    destruct (Rlt_dec 0 800) as [_ | H]; [| exfalso; apply H; lra].
    reflexivity.
Defined.

(** ** Rounded displays *)

Lemma round_near (v : R) : v - 1 / 2 < JS.round v <= v + 1 / 2.
Proof.
  unfold JS.round. destruct (base_Int_part (v + 1 / 2)) as [H1 H2]. lra.
Qed.

Lemma round_between (lo hi : Z) (v : R) :
  IZR lo <= v <= IZR hi -> IZR lo <= JS.round v <= IZR hi.
Proof.
  intros [Hlo Hhi]. pose proof (round_near v) as [H1 H2]. unfold JS.round in *.
  split.
  - apply IZR_le.
    assert (H : IZR (lo - 1) < IZR (Int_part (v + 1 / 2))) by (rewrite minus_IZR; lra).
    apply lt_IZR in H. lia.
  - apply IZR_le.
    assert (H : IZR (Int_part (v + 1 / 2)) < IZR (hi + 1)) by (rewrite plus_IZR; lra).
    apply lt_IZR in H. lia.
Qed.

Lemma radToDeg_range (a : R) : 0 <= a < 2 * PI -> 0 <= radToDeg a < 360.
Proof.
  intros [H1 H2]. pose proof PI_RGT_0 as Hpi. unfold radToDeg.
  assert (Hq : a * 180 / PI = a / PI * 180) by (field; lra).
  rewrite Hq.
  assert (0 <= a / PI) by (apply Rmult_le_pos; [lra | left; now apply Rinv_0_lt_compat]).
  assert (a / PI < 2).
  { apply Rmult_lt_reg_r with PI; [lra |].
    replace (a / PI * PI) with a by (field; lra). lra. }
  lra.
Qed.

Lemma degreeDisplay_round (a : R) :
  0 <= a < 2 * PI -> Spec.degreeDisplay a (JS.round (radToDeg a)).
Proof.
  intros Ha. pose proof (radToDeg_range a Ha) as Hr.
  pose proof (round_near (radToDeg a)) as Hn.
  pose proof (round_between 0 360 (radToDeg a) ltac:(lra)) as Hb.
  unfold Spec.degreeDisplay.
  split; [exact Hb |].
  split; [unfold JS.round; eauto |].
  split; [real_cases |].
  intros H.
  unfold JS.round in *.
  assert (Hlo : IZR 359 < IZR (Int_part (radToDeg a + 1 / 2))) by lra.
  assert (Hhi : IZR (Int_part (radToDeg a + 1 / 2)) < IZR 361) by lra.
  apply lt_IZR in Hlo, Hhi.
  replace (Int_part (radToDeg a + 1 / 2)) with 360%Z by lia. reflexivity.
Qed.

(** X19. For normalized angles the three degree getters return a whole number
    of degrees between 0 and 360, within half a degree of the angle; the
    value is 360, not 0, for an angle from 359.5 degrees up. *)
Theorem degree_getters_range (s : SailingState) :
  0 <= angle (windRing s) < 2 * PI ->
  0 <= angle (boatRing s) < 2 * PI ->
  0 <= wind_angle (apparentWind s) < 2 * PI ->
  Spec.degreeDisplay (angle (windRing s)) (windAngleDegrees s)
  /\ Spec.degreeDisplay (angle (boatRing s)) (boatHeadingDegrees s)
  /\ Spec.degreeDisplay (wind_angle (apparentWind s)) (apparentWindAngleDegrees s).
Proof.
  intros Hw Hb Ha.
  unfold windAngleDegrees, boatHeadingDegrees, apparentWindAngleDegrees.
  repeat split; now apply degreeDisplay_round.
Qed.

Lemma degree_getters_range_witness :
  Spec.degreeDisplay (angle (windRing Scenario.boatDraggedEast))
                     (windAngleDegrees Scenario.boatDraggedEast)
  /\ Spec.degreeDisplay (angle (boatRing Scenario.boatDraggedEast))
                        (boatHeadingDegrees Scenario.boatDraggedEast)
  /\ Spec.degreeDisplay (wind_angle (apparentWind Scenario.boatDraggedEast))
                        (apparentWindAngleDegrees Scenario.boatDraggedEast).
Proof.
  pose proof PI_RGT_0 as Hpi.
  apply (degree_getters_range Scenario.boatDraggedEast); cbn; unfold degToRad; lra.
Defined.

(** X20. The two relative wind angles of the data panel are whole numbers of
    degrees between -180 and 180, and the true-wind one is 0 when the wind
    ring and the boat ring have the same angle. *)
Theorem relative_angles_range (s : SailingState) :
  (-180 <= DataPanel.trueWindAngleRelative s <= 180)
  /\ (-180 <= DataPanel.apparentWindAngleRelative s <= 180)
  /\ (exists n : Z, DataPanel.trueWindAngleRelative s = IZR n)
  /\ (exists n : Z, DataPanel.apparentWindAngleRelative s = IZR n)
  /\ (angle (windRing s) = angle (boatRing s) -> DataPanel.trueWindAngleRelative s = 0).
Proof.
  assert (Hgen : forall a,
             -180 <= JS.round (if Rgt_dec (radToDeg (normalizeAngle a)) 180
                               then radToDeg (normalizeAngle a) - 360
                               else radToDeg (normalizeAngle a)) <= 180).
  { intros a. pose proof (radToDeg_range _ (normalizeAngle_range a)) as Hr.
    destruct (Rgt_dec _ 180) as [Hg | Hg].
    - pose proof (round_between (-180) 0 (radToDeg (normalizeAngle a) - 360)
                    ltac:(lra)). lra.
    - pose proof (round_between 0 180 (radToDeg (normalizeAngle a)) ltac:(lra)). lra. }
  unfold DataPanel.trueWindAngleRelative, DataPanel.apparentWindAngleRelative.
  cbv zeta.
  split; [apply Hgen |]. split; [apply Hgen |].
  split; [unfold JS.round; eauto |]. split; [unfold JS.round; eauto |].
  intros ->. rewrite Rminus_diag.
  rewrite normalizeAngle_id by (pose proof PI_RGT_0; lra).
  replace (radToDeg 0) with 0 by (unfold radToDeg; field; pose proof PI_RGT_0; lra).
  destruct (Rgt_dec 0 180) as [H | _]; [lra |].
  pose proof (round_between 0 0 0 ltac:(lra)) as H. lra.
Qed.

(** ** The canvas handlers over local refs *)

Lemma speedInTenths_rounded (d : R) :
  Spec.speedInTenths
    (JS.round (Rmax AppCanvas.minSpeed
                    (Rmin AppCanvas.maxSpeed (d / AppCanvas.pixelsPerKnot)) * 10) / 10).
Proof.
  unfold AppCanvas.minSpeed, AppCanvas.maxSpeed.
  set (v := Rmax 5 (Rmin 50 (d / AppCanvas.pixelsPerKnot))).
  assert (Hv : 5 <= v <= 50).
  { unfold v. split; [apply Rmax_l | apply Rmax_lub; [lra | apply Rmin_l]]. }
  pose proof (round_between 50 500 (v * 10) ltac:(lra)) as Hr.
  unfold Spec.speedInTenths. split; [lra |].
  exists (Int_part (v * 10 + 1 / 2)). unfold JS.round. field.
Qed.

Lemma refsInvariant_dispatch (s : SailingState) (e : AppCanvas.Event)
  (r : AppCanvas.Refs) :
  Spec.refsInvariant r -> Spec.refsInvariant (AppCanvas.dispatch s e r).
Proof.
  intros Hr. pose proof Hr as (Hb & Hw & Hbh & Hwh).
  destruct e as [mx my | mx my |]; cbn [AppCanvas.dispatch].
  - unfold AppCanvas.handleMouseDown. cbv zeta.
    repeat match goal with
           | |- context [if ?c then _ else _] => destruct c
           end; first [exact Hr | exact (conj Hb (conj Hw (conj Hbh Hwh)))].
  - unfold AppCanvas.handleMouseMove. cbv zeta.
    destruct (_ && _); [exact Hr |].
    destruct (AppCanvas.isDraggingBoat r).
    { exact (conj Hb (conj Hw (conj (atan2_range _ _) Hwh))). }
    destruct (AppCanvas.isDraggingWind r).
    { exact (conj Hb (conj Hw (conj Hbh (atan2_range _ _)))). }
    destruct (AppCanvas.isResizingBoat r).
    { exact (conj (speedInTenths_rounded _) (conj Hw (conj Hbh Hwh))). }
    destruct (AppCanvas.isResizingWind r).
    { exact (conj Hb (conj (speedInTenths_rounded _) (conj Hbh Hwh))). }
    exact Hr.
  - exact (conj Hb (conj Hw (conj Hbh Hwh))).
Qed.

Lemma refsInvariant_run (s : SailingState) (events : list AppCanvas.Event)
  (r : AppCanvas.Refs) :
  Spec.refsInvariant r -> Spec.refsInvariant (AppCanvas.run s events r).
Proof.
  revert r. unfold AppCanvas.run.
  induction events as [| e rest IH]; intros r Hr; [exact Hr |].
  cbn [fold_left]. apply IH. now apply refsInvariant_dispatch.
Qed.

(** X21. In app/composables/useSailingCanvas.ts, whatever mouse events
    arrive after start-up, both speeds stay between 5 and 50 knots and are
    whole tenths of a knot, and both headings stay in $(-\pi, \pi]$ (they are
    raw [atan2] values, not normalized into $[0, 2\pi)$). *)
Theorem canvas_refs_stay_in_range (s : SailingState) (events : list AppCanvas.Event) :
  Spec.refsInvariant (AppCanvas.run s events AppCanvas.initialRefs).
Proof.
  apply refsInvariant_run. pose proof PI_RGT_0 as Hpi.
  unfold Spec.refsInvariant, Spec.speedInTenths. cbn.
  repeat split; try lra.
  - exists 50%Z. lra.
  - exists 100%Z. lra.
Qed.

